(** * Interactive heatmap and speed generator

    A shallow embedding of [internal/manager/generator_interactive_heatmap_speed.go]
    and the properties of its numeric pipeline: loading and trimming a
    funscript, the per-action slope / intensity / speed, the median speed,
    the segment table with its backfill pass, the gradient table and its
    two lookups, and the intensity-to-colour mapping.

    Integers of the Go code ([int64], and [int] on a 64-bit target) are [Z]
    with the wrap-around written out where the code computes with them.
    [float64] values are the binary64 numbers of [SpecFloat] (precision 53,
    exponent bound 1024), with the operations rounding to nearest even, so
    every definition below evaluates. *)

From Stdlib Require Import ZArith List Bool Lia String.
From Stdlib Require Import Floats.SpecFloat.
From stdpp Require Import base list sorting.

Local Open Scope Z_scope.

(** ** Machine integers *)

Module Int64.

Definition min_int : Z := - 2 ^ 63.
Definition max_int : Z := 2 ^ 63 - 1.

(** Two's complement wrap-around of a 64-bit signed result. *)
Definition wrap (z : Z) : Z := (z + 2 ^ 63) mod 2 ^ 64 - 2 ^ 63.

Definition in_range (z : Z) : Prop := min_int <= z <= max_int.

Definition sub (a b : Z) : Z := wrap (a - b).
Definition add (a b : Z) : Z := wrap (a + b).

End Int64.

(** ** binary64 *)

Module F64.

Definition prec : Z := 53.
Definition emax : Z := 1024.

Definition float64 : Type := spec_float.

(** [float64(i)] of an integer: the nearest binary64, ties to even. *)
Definition of_int (z : Z) : float64 := binary_normalize prec emax z 0 false.

Definition add : float64 -> float64 -> float64 := SFadd prec emax.
Definition sub : float64 -> float64 -> float64 := SFsub prec emax.
Definition mul : float64 -> float64 -> float64 := SFmul prec emax.
Definition div : float64 -> float64 -> float64 := SFdiv prec emax.
Definition abs : float64 -> float64 := SFabs.
Definition ltb : float64 -> float64 -> bool := SFltb.
Definition leb : float64 -> float64 -> bool := SFleb.
Definition eqb : float64 -> float64 -> bool := SFeqb.

Definition zero : float64 := S754_zero false.
Definition one : float64 := of_int 1.
Definition pinf : float64 := S754_infinity false.
Definition ninf : float64 := S754_infinity true.
Definition nan : float64 := S754_nan.

Definition is_nan (x : float64) : bool :=
  match x with S754_nan => true | _ => false end.

Definition is_finite (x : float64) : bool :=
  match x with S754_zero _ | S754_finite _ _ _ => true | _ => false end.

Definition signbit (x : float64) : bool :=
  match x with
  | S754_zero s | S754_infinity s | S754_finite s _ _ => s
  | S754_nan => false
  end.

Definition valid (x : float64) : bool := valid_binary prec emax x.

(** A decimal constant [n / d] of the source text, rounded once to binary64
    (both [n] and [d] are exactly representable where this is used). *)
Definition ratio (n d : Z) : float64 := div (of_int n) (of_int d).

(** [math.Max] and [math.Min] of Go's standard library, special cases
    included: an infinity of the right sign wins, then a NaN, then the
    sign of zero decides between two zeros. *)
Definition max (x y : float64) : float64 :=
  if eqb x pinf || eqb y pinf then pinf
  else if is_nan x || is_nan y then nan
  else if eqb x zero && eqb x y then (if signbit x then y else x)
  else if ltb y x then x else y.

Definition min (x y : float64) : float64 :=
  if eqb x ninf || eqb y ninf then ninf
  else if is_nan x || is_nan y then nan
  else if eqb x zero && eqb x y then (if signbit x then x else y)
  else if ltb x y then x else y.

(** The integer part of a finite value, rounded toward zero. *)
Definition trunc (x : float64) : option Z :=
  match x with
  | S754_zero _ => Some 0
  | S754_finite s m e =>
      let a := match e with
               | Zneg k => Z.shiftr (Zpos m) (Zpos k)
               | _ => Z.shiftl (Zpos m) e
               end in
      Some (if s then - a else a)
  | _ => None
  end.

(** [int64(x)] and [int(x)]: truncation toward zero.  Go leaves the result
    implementation-dependent when the value does not fit (NaN, infinities,
    magnitude of 2^63 or more); the value chosen here is the one amd64
    produces, the "integer indefinite" 0x8000000000000000. *)
Definition to_int64 (x : float64) : Z :=
  match trunc x with
  | Some z => if (Int64.min_int <=? z) && (z <=? Int64.max_int) then z
              else Int64.min_int
  | None => Int64.min_int
  end.

(** The floor of a finite value, as an integer. *)
Definition floor (x : float64) : option Z :=
  match x with
  | S754_zero _ => Some 0
  | S754_finite s m e =>
      Some (match e with
            | Zneg k => (if s then Zneg m else Zpos m) / 2 ^ Zpos k
            | _ => (if s then Zneg m else Zpos m) * 2 ^ e
            end)
  | _ => None
  end.

End F64.

Abbreviation float64 := F64.float64.

(** ** Data model *)

(** [Action]: a move at a specific time, with the three derived fields. *)
Record Action : Type := mkAction {
  At : Z;            (* int64, milliseconds *)
  Pos : Z;           (* int, percent *)
  Slope : float64;
  Intensity : Z;     (* int64 *)
  Speed : float64
}.

(** An action as a document that gives only [at] and [pos] decodes it. *)
Definition rawAction (at_ pos : Z) : Action :=
  mkAction at_ pos F64.zero 0 F64.zero.

Record Script : Type := mkScript {
  Version : string;
  Inverted : bool;
  Range : Z;
  Actions : list Action;
  AvarageSpeed : Z
}.

Definition emptyScript : Script := mkScript EmptyString false 0 [] 0.

Definition set_Actions (s : Script) (l : list Action) : Script :=
  mkScript (Version s) (Inverted s) (Range s) l (AvarageSpeed s).

(** ** Sorting

    [sort.SliceStable] and [sort.Slice] are given a [less] function over
    indices.  The model is the insertion sort of Go's [sort] package (the
    whole algorithm for short slices, and the first phase of the stable
    sort): element [i] moves left past every element it is [less] than.
    The sorted prefix is kept reversed, so the element at its head is the
    one the inner loop compares with first. *)

Section InsertionSort.
Context {A : Type} (less : A -> A -> bool).

(** One run of the inner loop: [x] sinks into the prefix [racc], which is
    held right end first. *)
Fixpoint sift (x : A) (racc : list A) : list A :=
  match racc with
  | [] => [x]
  | y :: r => if less x y then y :: sift x r else x :: y :: r
  end.

Definition insertion_sort (l : list A) : list A :=
  reverse (foldl (fun racc x => sift x racc) [] l).
End InsertionSort.

(** ** Loading and trimming a funscript *)

(** What [os.ReadFile] followed by [json.Unmarshal] hands to the rest of
    [LoadFunscriptData]: one of the two calls failed with its own error, or
    the document decoded, its [actions] being a nil slice ([None]) when the
    key is absent. *)
Record Decoded : Type := mkDecoded {
  dVersion : string;
  dInverted : bool;
  dRange : Z;
  dActions : option (list Action);
  dAvarageSpeed : Z
}.

Inductive FileOutcome : Type :=
| ReadFails (e : string)
| UnmarshalFails (e : string)
| Decodes (d : Decoded).

Inductive error : Type :=
| ErrRead (e : string)
| ErrUnmarshal (e : string)
| ErrActionsMissing (path : string)
| ErrNoValidActions
| ErrCreate (e : string)
| ErrEncode (e : string).

(** A warning handed to the logger: the offending timestamp and the path. *)
Record Warning : Type := mkWarning { wAt : Z; wPath : string }.

Definition isValid (sceneDurationMilli x : Z) : bool :=
  (0 <=? x) && (x <? sceneDurationMilli).

(** The state of the compaction loop: the slice being rewritten in place,
    the write index [i], the flag and the warnings logged so far. *)
Record Compaction : Type := mkCompaction {
  cArr : list Action;
  cI : nat;
  cLogged : bool;
  cLog : list Warning
}.

(** The body of [for _, x := range funscript.Actions], at read index [k]:
    [x] is read from the slice as it is now. *)
Definition compact_step (dur : Z) (path : string) (st : Compaction) (k : nat)
  : Compaction :=
  match cArr st !! k with
  | Some x =>
      if isValid dur (At x) then
        mkCompaction (<[cI st := x]> (cArr st)) (S (cI st)) (cLogged st) (cLog st)
      else if negb (cLogged st) then
        mkCompaction (cArr st) (cI st) true (cLog st ++ [mkWarning (At x) path])
      else st
  | None => st
  end.

Definition compact (dur : Z) (path : string) (l : list Action) : Compaction :=
  foldl (compact_step dur path) (mkCompaction l 0 false []) (seq 0 (length l)).

Definition at_less (a b : Action) : bool := At a <? At b.

(** [LoadFunscriptData]: the script or the error, and the warnings logged. *)
Definition LoadFunscriptData (dur : Z) (path : string) (file : FileOutcome)
  : (error + Script) * list Warning :=
  match file with
  | ReadFails e => (inl (ErrRead e), [])
  | UnmarshalFails e => (inl (ErrUnmarshal e), [])
  | Decodes d =>
      match dActions d with
      | None => (inl (ErrActionsMissing path), [])
      | Some acts =>
          let sorted := insertion_sort at_less acts in
          let c := compact dur path sorted in
          (inr (mkScript (dVersion d) (dInverted d) (dRange d)
                  (take (cI c) (cArr c)) (dAvarageSpeed d)),
           cLog c)
      end
  end.

(** A document that gives nothing but its actions. *)
Definition decoded_of (acts : list Action) : FileOutcome :=
  Decodes (mkDecoded EmptyString false 0 (Some acts) 0).


(** ** Slope, intensity and speed *)

Definition delta_t (t1 t2 : Z) : float64 := F64.of_int (Int64.sub t1 t2).
Definition delta_p (p1 p2 : Z) : float64 := F64.abs (F64.of_int (Int64.sub p1 p2)).

(** [math.Min(math.Max(1/(2*float64(t1-t2)/1000), 0), 20)] *)
Definition slope_of (t1 t2 : Z) : float64 :=
  F64.min
    (F64.max
       (F64.div (F64.of_int 1)
          (F64.div (F64.mul (F64.of_int 2) (delta_t t1 t2)) (F64.of_int 1000)))
       (F64.of_int 0))
    (F64.of_int 20).

(** [int64(slope * math.Abs(float64(p1-p2)))] *)
Definition intensity_of (slope : float64) (p1 p2 : Z) : Z :=
  F64.to_int64 (F64.mul slope (delta_p p1 p2)).

(** [math.Abs(float64(p1-p2)) / float64(t1-t2) * 1000] *)
Definition speed_of (t1 t2 p1 p2 : Z) : float64 :=
  F64.mul (F64.div (delta_p p1 p2) (delta_t t1 t2)) (F64.of_int 1000).

(** The body of the loop at index [i], on the slice as it is now. *)
Definition update_step (arr : list Action) (i : nat) : list Action :=
  match i with
  | O => arr
  | S j =>
      match arr !! i, arr !! j with
      | Some cur, Some prev =>
          let t1 := At cur in
          let t2 := At prev in
          let p1 := Pos cur in
          let p2 := Pos prev in
          let slope := slope_of t1 t2 in
          let intensity := intensity_of slope p1 p2 in
          let speed := speed_of t1 t2 p1 p2 in
          <[i := mkAction (At cur) (Pos cur) slope intensity speed]> arr
      | _, _ => arr
      end
  end.

Definition UpdateIntensityAndSpeed (funscript : Script) : Script :=
  set_Actions funscript
    (foldl update_step (Actions funscript) (seq 0 (length (Actions funscript)))).

(** ** Median speed *)

Definition speed_less (a b : Action) : bool := F64.ltb (Speed a) (Speed b).

(** The value handed to the final [int(...)] conversion, on the slice
    already sorted: [None] when an index is out of range (empty slice). *)
Definition median_speed (sorted : list Action) : option float64 :=
  let n := length sorted in
  let mNumber := (n / 2)%nat in
  if negb (n mod 2 =? 0)%nat then
    Speed <$> sorted !! mNumber
  else
    match mNumber with
    | O => None
    | S k =>
        match sorted !! k, sorted !! mNumber with
        | Some a, Some b =>
            Some (F64.div (F64.add (Speed a) (Speed b)) (F64.of_int 2))
        | _, _ => None
        end
    end.

(** [CalculateMedian] has a pointer receiver and sorts [funscript.Actions]
    itself: the result is the script as the call leaves it, and the value
    returned.  [None] is the run-time panic on an empty slice. *)
Definition CalculateMedian (funscript : Script) : option (Script * Z) :=
  let sorted := insertion_sort speed_less (Actions funscript) in
  match median_speed sorted with
  | Some m => Some (set_Actions funscript sorted, F64.to_int64 m)
  | None => None
  end.

(** ** Colours

    The part of [github.com/lucasb-eyer/go-colorful] the generator calls.
    It is a dependency, not code of this repository, so it enters as an
    interface; [Hex] is the colour of a well-formed hexadecimal string (the
    generator discards the error). *)
Class Colorful : Type := {
  Color : Type;
  Hex : string -> Color;
  BlendLab : Color -> Color -> float64 -> Color;
  BlendRgb : Color -> Color -> float64 -> Color;
  BlendHcl : Color -> Color -> float64 -> Color;
  Clamped : Color -> Color
}.

Section Gradient.
Context `{Colorful}.

Definition colorBlue : Color := Hex "#1e90ff".
Definition colorGreen : Color := Hex "#228b22".
Definition colorYellow : Color := Hex "#ffd700".
Definition colorRed : Color := Hex "#dc143c".
Definition colorPurple : Color := Hex "#800080".
Definition colorBlack : Color := Hex "#0f001e".
Definition colorBackground : Color := Hex "#30404d".

Definition stepSize : float64 := F64.of_int 60.

(** [k*stepSize] for the integer constant [k]. *)
Definition steps (k : Z) : float64 := F64.mul (F64.of_int k) stepSize.

Definition getSegmentColor (intensity : float64) : Color :=
  if F64.leb intensity (F64.ratio 1 1000) then colorBackground
  else if F64.leb intensity (steps 1) then
    BlendLab colorBlue colorGreen
      (F64.div (F64.sub intensity (steps 0)) stepSize)
  else if F64.leb intensity (steps 2) then
    BlendLab colorGreen colorYellow
      (F64.div (F64.sub intensity (steps 1)) stepSize)
  else if F64.leb intensity (steps 3) then
    BlendLab colorYellow colorRed
      (F64.div (F64.sub intensity (steps 2)) stepSize)
  else if F64.leb intensity (steps 4) then
    BlendRgb colorRed colorPurple
      (F64.div (F64.sub intensity (steps 3)) stepSize)
  else
    BlendLab colorPurple colorBlack
      (F64.min
         (F64.div (F64.sub intensity (steps 4)) (F64.mul (F64.of_int 5) stepSize))
         (F64.of_int 1)).

(** One element of a [GradientTable]. *)
Record Stop : Type := mkStop {
  Col : Color;
  StopPos : float64;                 (* the field [Pos] *)
  YRange : float64 * float64
}.

Definition GradientTable : Type := list Stop.

Definition between (c1 c2 : Stop) (t : float64) : bool :=
  F64.leb (StopPos c1) t && F64.leb t (StopPos c2).

(** The loop [for i := 0; i < len(gt)-1; i++] of both lookups, over the
    indices still to visit: the first pair of neighbours around [t]. *)
Fixpoint enclosing (gt : GradientTable) (t : float64) (todo : list nat)
  : option (Stop * Stop) :=
  match todo with
  | [] => None
  | i :: rest =>
      match gt !! i, gt !! S i with
      | Some c1, Some c2 =>
          if between c1 c2 t then Some (c1, c2) else enclosing gt t rest
      | _, _ => None
      end
  end.

Definition pair_indices (gt : GradientTable) : list nat :=
  seq 0 (length gt - 1).

(** [None] is the panic of [gt[len(gt)-1]] on an empty table. *)
Definition GetInterpolatedColorFor (gt : GradientTable) (t : float64)
  : option Color :=
  match enclosing gt t (pair_indices gt) with
  | Some (c1, c2) =>
      let t' := F64.div (F64.sub t (StopPos c1))
                  (F64.sub (StopPos c2) (StopPos c1)) in
      Some (Clamped (BlendHcl (Col c1) (Col c2) t'))
  | None => Col <$> last gt
  end.

Definition GetYRange (gt : GradientTable) (t : float64)
  : option (float64 * float64) :=
  match enclosing gt t (pair_indices gt) with
  | Some (c1, c2) => Some (YRange c1)
  | None => YRange <$> last gt
  end.

(** *** Segments *)

Record Segment : Type := mkSegment {
  count : Z;
  intensity : Z;
  yRange : float64 * float64;
  seg_at : Z                         (* the field [at] *)
}.

Definition zeroSegment : Segment := mkSegment 0 0 (F64.zero, F64.zero) 0.

Definition windowSize : Z := 15.
Definition backfillThreshold : Z := 500.

(** [make([]T, n)]: the run-time refuses a negative length and a slice of
    more than [maxAlloc] bytes (2^48 on a 64-bit target). *)
Definition maxAlloc : Z := 2 ^ 48.
Definition makeslice_ok (elemSize n : Z) : bool :=
  (0 <=? n) && (n * elemSize <=? maxAlloc).
Definition segmentSize : Z := 40.
Definition stopSize : Z := 48.

Definition sum_ints (l : list Z) : Z := foldl Int64.add 0 l.

(** The mean of a half of the sorted window, [float64(total)/float64(len)]. *)
Definition average (l : list Z) : float64 :=
  F64.div (F64.of_int (sum_ints l)) (F64.of_int (Z.of_nat (length l))).

(** [int(float64(a.At) / float64(maxts+1) * float64(numSegments))], then
    clamped to [numSegments-1]. *)
Definition segment_index (maxts numSegments at_ : Z) : Z :=
  let segment :=
    F64.to_int64
      (F64.mul
         (F64.div (F64.of_int at_) (F64.of_int (Int64.add maxts 1)))
         (F64.of_int numSegments)) in
  if numSegments <=? segment then numSegments - 1 else segment.

(** The body of [for _, a := range funscript.Actions] on the segments and
    the window of positions; [None] is an index out of range. *)
Definition bin_step (maxts numSegments : Z)
    (st : option (list Segment * list Z)) (a : Action)
  : option (list Segment * list Z) :=
  match st with
  | None => None
  | Some (segments, posList) =>
      let posList := posList ++ [Pos a] in
      let posList :=
        if windowSize <? Z.of_nat (length posList) then tail posList
        else posList in
      let sortedPos := insertion_sort Z.ltb posList in
      let half := (length sortedPos / 2)%nat in
      let topHalf := drop half sortedPos in
      let bottomHalf := take half sortedPos in
      let averageBottom := average bottomHalf in
      let averageTop := average topHalf in
      let segment := segment_index maxts numSegments (At a) in
      if segment <? 0 then None
      else
        match segments !! Z.to_nat segment with
        | None => None
        | Some sg =>
            Some (<[Z.to_nat segment :=
                     mkSegment (Int64.add (count sg) 1)
                       (Int64.add (intensity sg) (Intensity a))
                       (averageTop, averageBottom)
                       (At a)]> segments,
                  posList)
        end
  end.

(** [int64(float64(i) / float64(numSegments))] *)
Definition segmentTS (numSegments : Z) (i : nat) : Z :=
  F64.to_int64 (F64.div (F64.of_int (Z.of_nat i)) (F64.of_int numSegments)).

(** The body of the backfill loop at bin [i], on the segments and the
    tracked [lastSegment]. *)
Definition backfill_step (numSegments : Z)
    (st : list Segment * Segment) (i : nat) : list Segment * Segment :=
  let '(segments, lastSegment) := st in
  match segments !! i with
  | None => st
  | Some sg =>
      if count sg =? 0 then
        if Int64.sub (segmentTS numSegments i) (seg_at lastSegment)
             <? backfillThreshold
        then
          (<[i := mkSegment (count lastSegment) (intensity lastSegment)
                    (yRange lastSegment) (seg_at sg)]> segments,
           lastSegment)
        else st
      else (segments, sg)
  end.

Definition backfill (numSegments : Z) (segments : list Segment)
    (lastSegment : Segment) : list Segment * Segment :=
  foldl (backfill_step numSegments) (segments, lastSegment)
    (seq 0 (Z.to_nat numSegments)).

(** The stop the last loop writes at index [i]. *)
Definition stop_of (numSegments : Z) (i : nat) (sg : Segment) : Stop :=
  mkStop
    (if 0 <? count sg then
       getSegmentColor
         (F64.div (F64.of_int (intensity sg)) (F64.of_int (count sg)))
     else getSegmentColor (F64.of_int 0))
    (F64.div (F64.of_int (Z.of_nat i)) (F64.of_int (numSegments - 1)))
    (yRange sg).

(** The segments after the first loop; [None] is a run-time panic (slice
    too large, no action, index out of range). *)
Definition binSegments (funscript : Script) (numSegments : Z)
  : option (list Segment) :=
  if negb (makeslice_ok segmentSize numSegments
           && makeslice_ok stopSize numSegments) then None
  else
    match last (Actions funscript) with
    | None => None
    | Some lastAction =>
        let maxts := At lastAction in
        let segments0 := replicate (Z.to_nat numSegments) zeroSegment in
        fst <$> foldl (bin_step maxts numSegments) (Some (segments0, []))
                  (Actions funscript)
    end.

(** The segments after binning and backfill, [lastSegment] starting as
    [segments[0]]. *)
Definition getSegments (funscript : Script) (numSegments : Z)
  : option (list Segment) :=
  match binSegments funscript numSegments with
  | None => None
  | Some segments =>
      match segments !! 0%nat with
      | None => None
      | Some lastSegment =>
          Some (fst (backfill numSegments segments lastSegment))
      end
  end.

Definition getGradientTable (funscript : Script) (numSegments : Z)
  : option GradientTable :=
  imap (stop_of numSegments) <$> getSegments funscript numSegments.
End Gradient.

(** ** Rendering and the generator *)

Record InteractiveHeatmapSpeedGenerator : Type := mkGenerator {
  sceneDurationMilli : Z;
  InteractiveSpeed : Z;
  Funscript : Script;
  FunscriptPath : string;
  HeatmapPath : string;
  Width : Z;
  Height : Z;
  NumSegments : Z
}.

Definition NewInteractiveHeatmapSpeedGenerator
    (funscriptPath heatmapPath : string) (sceneDuration : float64)
  : InteractiveHeatmapSpeedGenerator :=
  mkGenerator (F64.to_int64 (F64.mul sceneDuration (F64.of_int 1000)))
    0 emptyScript funscriptPath heatmapPath 1280 60 600.

Definition set_Funscript (g : InteractiveHeatmapSpeedGenerator) (s : Script) :=
  mkGenerator (sceneDurationMilli g) (InteractiveSpeed g) s (FunscriptPath g)
    (HeatmapPath g) (Width g) (Height g) (NumSegments g).

Definition set_InteractiveSpeed (g : InteractiveHeatmapSpeedGenerator) (v : Z) :=
  mkGenerator (sceneDurationMilli g) v (Funscript g) (FunscriptPath g)
    (HeatmapPath g) (Width g) (Height g) (NumSegments g).

(** [image.Rect]: the corners, put in order. *)
Definition Rect (x0 y0 x1 y1 : Z) : Z * Z * Z * Z :=
  let '(x0, x1) := if x1 <? x0 then (x1, x0) else (x0, x1) in
  let '(y0, y1) := if y1 <? y0 then (y1, y0) else (y0, y1) in
  (x0, y0, x1, y1).

Section Generator.
Context `{Colorful}.

(** One [draw.Draw] of a uniform colour over a rectangle. *)
Record Fill : Type := mkFill { fRect : Z * Z * Z * Z; fCol : Color }.

(** The image: its bounds and the fills painted on it, in order. *)
Record Image : Type := mkImage { iBounds : Z * Z * Z * Z; iFills : list Fill }.

(** What the world outside answers: the funscript file, [os.Create] and
    [png.Encode]. *)
Record World : Type := mkWorld {
  wFile : FileOutcome;
  wCreate : option string;
  wEncode : Image -> option string
}.

(** What a run does that can be seen from outside, and the calls
    [Generate] makes on the way. *)
Inductive Event : Type :=
| EvWarn (w : Warning)
| EvUpdateIntensityAndSpeed
| EvRenderHeatmap
| EvCreate (path : string)
| EvEncode (img : Image)
| EvCalculateMedian.

(** How a call ends: it returns (with or without an error) or panics. *)
Inductive Outcome : Type :=
| Returns (err : option error)
| Panics.

(** The column of the first loop of [RenderHeatmap] at [x]. *)
Definition column (g : InteractiveHeatmapSpeedGenerator)
    (gradient : GradientTable) (x : Z) : option Fill :=
  let xPos := F64.div (F64.of_int x) (F64.of_int (Width g)) in
  match GetInterpolatedColorFor gradient xPos, GetYRange gradient xPos with
  | Some c, Some yr =>
      let h := F64.of_int (Height g) in
      let top := F64.to_int64 (F64.mul (F64.div (fst yr) (F64.of_int 100)) h) in
      let bottom := F64.to_int64 (F64.mul (F64.div (snd yr) (F64.of_int 100)) h) in
      Some (mkFill (Rect x (Int64.sub (Height g) top)
                      (Int64.add x 1) (Int64.sub (Height g) bottom)) c)
  | _, _ => None
  end.

Fixpoint columns (g : InteractiveHeatmapSpeedGenerator)
    (gradient : GradientTable) (xs : list Z) : option (list Fill) :=
  match xs with
  | [] => Some []
  | x :: rest =>
      match column g gradient x, columns g gradient rest with
      | Some f, Some fs => Some (f :: fs)
      | _, _ => None
      end
  end.

Definition tick : Z := 600000.

(** The ten-minute marks, [for ts < maxts { ...; ts += tick }]; the fuel
    bounds the number of rounds and [None] means it ran out. *)
Fixpoint ticks (fuel : nat) (g : InteractiveHeatmapSpeedGenerator)
    (maxts ts : Z) : option (list Fill) :=
  if ts <? maxts then
    match fuel with
    | O => None
    | S fuel' =>
        let x := F64.to_int64
                   (F64.mul (F64.div (F64.of_int ts) (F64.of_int maxts))
                      (F64.of_int (Width g))) in
        match ticks fuel' g maxts (Int64.add ts tick) with
        | Some fs =>
            Some (mkFill (Rect (Int64.sub x 1) (Z.quot (Height g) 2)
                            (Int64.add x 1) (Height g)) (Hex "#000000") :: fs)
        | None => None
        end
    end
  else Some [].

(** [RenderHeatmap]: the events and how the call ends. *)
Definition RenderHeatmap (w : World) (g : InteractiveHeatmapSpeedGenerator)
  : list Event * Outcome :=
  match getGradientTable (Funscript g) (NumSegments g),
        last (Actions (Funscript g)) with
  | Some gradient, Some lastAction =>
      let maxts := At lastAction in
      match columns g gradient (Z.of_nat <$> seq 0 (Z.to_nat (Width g))),
            ticks (Z.to_nat (Z.quot maxts tick) + 1) g maxts tick with
      | Some cols, Some marks =>
          let img := mkImage (Rect 0 0 (Width g) (Height g)) (cols ++ marks) in
          match wCreate w with
          | Some e => ([EvCreate (HeatmapPath g)], Returns (Some (ErrCreate e)))
          | None =>
              ([EvCreate (HeatmapPath g); EvEncode img],
               Returns (ErrEncode <$> wEncode w img))
          end
      | _, _ => ([], Panics)
      end
  | _, _ => ([], Panics)
  end.

(** [Generate]: the generator as the call leaves it, the events in
    order, and how the call ends. *)
Definition Generate (w : World) (g : InteractiveHeatmapSpeedGenerator)
  : InteractiveHeatmapSpeedGenerator * list Event * Outcome :=
  let '(loaded, warnings) :=
    LoadFunscriptData (sceneDurationMilli g) (FunscriptPath g) (wFile w) in
  let log := EvWarn <$> warnings in
  match loaded with
  | inl err => (g, log, Returns (Some err))
  | inr funscript =>
      if (length (Actions funscript) =? 0)%nat then
        (g, log, Returns (Some ErrNoValidActions))
      else
        let g := set_Funscript g funscript in
        let g := set_Funscript g (UpdateIntensityAndSpeed (Funscript g)) in
        let log := log ++ [EvUpdateIntensityAndSpeed; EvRenderHeatmap] in
        match RenderHeatmap w g with
        | (evs, Panics) => (g, log ++ evs, Panics)
        | (evs, Returns (Some err)) => (g, log ++ evs, Returns (Some err))
        | (evs, Returns None) =>
            let log := log ++ evs ++ [EvCalculateMedian] in
            match CalculateMedian (Funscript g) with
            | None => (g, log, Panics)
            | Some (funscript', m) =>
                (set_InteractiveSpeed (set_Funscript g funscript') m,
                 log, Returns None)
            end
        end
  end.
End Generator.

(** ** A stand-in for the colour library

    Colours as triples of binary64 components, [Hex] as the library decodes
    a "#rrggbb" string, [BlendRgb] as the library computes it, component by
    component.  The Lab and HCL blends of the library need cube roots and
    trigonometry; here they are the same component-wise blend, so this
    instance only serves to run the definitions above. *)
Module Linear.

Definition rgb : Type := float64 * float64 * float64.

Definition hex_digit (c : Ascii.ascii) : Z :=
  let n := Z.of_N (Ascii.N_of_ascii c) in
  if (48 <=? n) && (n <=? 57) then n - 48
  else if (97 <=? n) && (n <=? 102) then n - 87
  else if (65 <=? n) && (n <=? 70) then n - 55
  else 0.

Definition channel (hi lo : Ascii.ascii) : float64 :=
  F64.mul (F64.of_int (16 * hex_digit hi + hex_digit lo)) (F64.ratio 1 255).

Definition hex (s : string) : rgb :=
  match s with
  | String _ (String r1 (String r0 (String g1 (String g0 (String b1 (String b0 _)))))) =>
      (channel r1 r0, channel g1 g0, channel b1 b0)
  | _ => (F64.zero, F64.zero, F64.zero)
  end.

Definition lerp (a b t : float64) : float64 :=
  F64.add a (F64.mul t (F64.sub b a)).

Definition blend (c1 c2 : rgb) (t : float64) : rgb :=
  let '(r1, g1, b1) := c1 in
  let '(r2, g2, b2) := c2 in
  (lerp r1 r2 t, lerp g1 g2 t, lerp b1 b2 t).

Definition clamp01 (x : float64) : float64 :=
  F64.max (F64.of_int 0) (F64.min x (F64.of_int 1)).

Definition clamped (c : rgb) : rgb :=
  let '(r, g, b) := c in (clamp01 r, clamp01 g, clamp01 b).

#[export] Instance colorful : Colorful :=
  {| Color := rgb; Hex := hex; BlendLab := blend; BlendRgb := blend;
     BlendHcl := blend; Clamped := clamped |}.

End Linear.


(** * Properties *)

(** ** Insertion sort *)

Section SortFacts.
Context {A : Type} (less : A -> A -> bool).

Lemma sift_perm (x : A) (r : list A) : sift less x r ≡ₚ x :: r.
Proof.
  induction r as [|y r IH]; simpl; [done|].
  destruct (less x y); [|done].
  rewrite IH. apply Permutation_swap.
Qed.

Lemma foldl_sift_perm (l acc : list A) :
  foldl (fun racc x => sift less x racc) acc l ≡ₚ acc ++ l.
Proof.
  revert acc. induction l as [|x l IH]; intros acc; simpl.
  - by rewrite app_nil_r.
  - rewrite IH, sift_perm. simpl. apply Permutation_middle.
Qed.

Lemma insertion_sort_perm (l : list A) : insertion_sort less l ≡ₚ l.
Proof.
  unfold insertion_sort. rewrite reverse_Permutation.
  apply (foldl_sift_perm l []).
Qed.

Lemma insertion_sort_length (l : list A) :
  length (insertion_sort less l) = length l.
Proof. apply Permutation_length, insertion_sort_perm. Qed.

(** Sortedness, for elements on which [less] is the strict part of a
    total preorder [le]. *)
Section Sorted.
Context (le : A -> A -> Prop) (ok : A -> Prop).
Hypothesis less_le : forall x y, ok x -> ok y -> less x y = true -> le x y.
Hypothesis nless_le : forall x y, ok x -> ok y -> less x y = false -> le y x.
Hypothesis le_trans :
  forall x y z, ok x -> ok y -> ok z -> le x y -> le y z -> le x z.

Lemma sift_sorted (x : A) (r : list A) :
  ok x -> Forall ok r ->
  StronglySorted (flip le) r -> StronglySorted (flip le) (sift less x r).
Proof.
  intros Hx Hr Hs. induction Hs as [|y r Hs IH Hy]; simpl.
  - repeat constructor.
  - apply Forall_cons in Hr as [Hoy Hr].
    destruct (less x y) eqn:E.
    + constructor; [by apply IH|].
      rewrite (sift_perm x r). constructor; [|done].
      unfold flip. by apply less_le.
    + constructor; [by constructor|].
      constructor; [unfold flip; by apply nless_le|].
      rewrite Forall_forall in Hy, Hr |- *. intros z Hz. unfold flip.
      apply (le_trans z y x); auto; first [apply (Hy z Hz)|by apply nless_le].
Qed.

Lemma foldl_sift_sorted (l acc : list A) :
  Forall ok l -> Forall ok acc -> StronglySorted (flip le) acc ->
  StronglySorted (flip le) (foldl (fun racc x => sift less x racc) acc l).
Proof.
  revert acc. induction l as [|x l IH]; intros acc Hl Ha Hs; simpl; [done|].
  apply Forall_cons in Hl as [Hx Hl].
  apply IH; [done| |by apply sift_sorted].
  rewrite (sift_perm x acc). by constructor.
Qed.

Lemma StronglySorted_flip_rev (l : list A) :
  StronglySorted (flip le) l -> StronglySorted le (reverse l).
Proof.
  induction 1 as [|x l Hs IH Hx]; [constructor|].
  rewrite reverse_cons.
  apply StronglySorted_app_2; [|done|repeat constructor].
  intros a b Ha Hb. apply list_elem_of_singleton in Hb as ->.
  rewrite Forall_forall in Hx. apply Hx.
  by apply elem_of_reverse.
Qed.

Lemma insertion_sort_sorted (l : list A) :
  Forall ok l -> StronglySorted le (insertion_sort less l).
Proof.
  intros Hl. apply StronglySorted_flip_rev, foldl_sift_sorted; auto.
  constructor.
Qed.
End Sorted.

(** Stability: elements that [less] never separates keep their order. *)
Section Stable.
Context (P : A -> Prop) `{!forall x, Decision (P x)}.
Hypothesis less_P : forall x y, P x -> P y -> less x y = false.

Lemma sift_filter (x : A) (r : list A) :
  filter P (sift less x r) = filter P (x :: r).
Proof.
  induction r as [|y r IH]; simpl; [done|].
  destruct (less x y) eqn:E; [|done].
  rewrite filter_cons, IH, !filter_cons.
  destruct (decide (P y)) as [Hy|Hy], (decide (P x)) as [Hx|Hx]; try done.
  by rewrite less_P in E.
Qed.

Lemma foldl_sift_filter (l acc : list A) :
  filter P (foldl (fun racc x => sift less x racc) acc l)
  = reverse (filter P l) ++ filter P acc.
Proof.
  revert acc. induction l as [|x l IH]; intros acc; simpl; [done|].
  rewrite IH, sift_filter, !filter_cons.
  destruct (decide (P x)); simpl; [|done].
  by rewrite reverse_cons, <- app_assoc.
Qed.

Lemma insertion_sort_stable (l : list A) :
  filter P (insertion_sort less l) = filter P l.
Proof.
  unfold insertion_sort.
  rewrite filter_reverse, foldl_sift_filter, filter_nil, app_nil_r.
  apply reverse_involutive.
Qed.
End Stable.
End SortFacts.

(** ** Loading: sorting and trimming *)

Definition valid_at (dur : Z) (a : Action) : Prop := 0 <= At a < dur.

#[local] Instance valid_at_dec dur a : Decision (valid_at dur a).
Proof. unfold valid_at. apply _. Defined.

Lemma isValid_spec dur x : isValid dur x = true <-> 0 <= x < dur.
Proof. unfold isValid. rewrite andb_true_iff, Z.leb_le, Z.ltb_lt. tauto. Qed.

Lemma isValid_valid_at dur a : isValid dur (At a) = true <-> valid_at dur a.
Proof. apply isValid_spec. Qed.

(** The first invalid action, as the warning that names it. *)
Definition first_warning (dur : Z) (path : string) (l : list Action)
  : list Warning :=
  (fun a => mkWarning (At a) path)
    <$> take 1 (filter (fun a => ~ valid_at dur a) l).

(** What holds of the compaction loop after its first [k] rounds on [l]. *)
Record compact_inv (dur : Z) (path : string) (l : list Action) (k : nat)
    (st : Compaction) : Prop := {
  ci_length : length (cArr st) = length l;
  ci_le : (cI st <= k)%nat;
  ci_take : take (cI st) (cArr st) = filter (valid_at dur) (take k l);
  ci_drop : drop k (cArr st) = drop k l;
  ci_log : cLog st = first_warning dur path (take k l);
  ci_logged : cLogged st = true <-> first_warning dur path (take k l) <> []
}.

Lemma compact_step_inv dur path l k st x :
  l !! k = Some x ->
  compact_inv dur path l k st ->
  compact_inv dur path l (S k) (compact_step dur path st k).
Proof.
  intros Hk [Hlen Hle Htake Hdrop Hlog Hlogged].
  assert (Hlt : (k < length l)%nat) by (by apply lookup_lt_Some in Hk).
  assert (Hx : cArr st !! k = Some x).
  { rewrite <- (Nat.add_0_r k), <- lookup_drop, Hdrop, lookup_drop.
    by rewrite Nat.add_0_r. }
  assert (Hdrop' : drop (S k) (cArr st) = drop (S k) l).
  { replace (S k) with (k + 1)%nat by lia. by rewrite <- !drop_drop, Hdrop. }
  unfold compact_step. rewrite Hx.
  destruct (isValid dur (At x)) eqn:E.
  - apply isValid_valid_at in E.
    assert (Hv : filter (valid_at dur) (take (S k) l)
                 = filter (valid_at dur) (take k l) ++ [x]).
    { rewrite (take_S_r l k x Hk), filter_app.
      by rewrite (filter_cons_True _ x []), filter_nil. }
    assert (Hw : first_warning dur path (take (S k) l)
                 = first_warning dur path (take k l)).
    { unfold first_warning. rewrite (take_S_r l k x Hk), filter_app.
      rewrite (filter_cons_False _ x []), filter_nil, app_nil_r by tauto. done. }
    split; simpl; rewrite ?Hv, ?Hw; try done.
    + by rewrite length_insert.
    + lia.
    + rewrite (take_S_r _ _ x).
      * by rewrite take_insert_ge, Htake by lia.
      * apply list_lookup_insert_eq. lia.
    + rewrite drop_insert_lt by lia. done.
  - assert (~ valid_at dur x) as E' by (rewrite <- isValid_valid_at; congruence).
    assert (Hv : filter (valid_at dur) (take (S k) l)
                 = filter (valid_at dur) (take k l)).
    { rewrite (take_S_r l k x Hk), filter_app.
      by rewrite (filter_cons_False _ x []), filter_nil, app_nil_r. }
    assert (Hw : first_warning dur path (take (S k) l)
                 = if cLogged st then first_warning dur path (take k l)
                   else [mkWarning (At x) path]).
    { unfold first_warning in *. rewrite (take_S_r l k x Hk), filter_app.
      rewrite (filter_cons_True _ x []), filter_nil by done.
      destruct (filter (fun a => ~ valid_at dur a) (take k l)) as [|y ys] eqn:F;
        simpl in *.
      - destruct (cLogged st); [|done]. exfalso. by apply Hlogged.
      - destruct (cLogged st) eqn:L; [done|].
        assert (false = true); [|done]. by apply Hlogged. }
    destruct (cLogged st) eqn:L; simpl;
      split; simpl; rewrite ?Hv, ?Hw, ?L; try done; try lia.
    rewrite Hlog. destruct (first_warning dur path (take k l)) eqn:F; [done|].
    assert (false = true); [|done]. by apply Hlogged.
Qed.

Lemma compact_loop_inv dur path l m k st :
  (k + m <= length l)%nat ->
  compact_inv dur path l k st ->
  compact_inv dur path l (k + m)
    (foldl (compact_step dur path) st (seq k m)).
Proof.
  revert k st. induction m as [|m IH]; intros k st Hkm Hinv; simpl.
  - by rewrite Nat.add_0_r.
  - destruct (lookup_lt_is_Some_2 l k) as [x Hx]; [lia|].
    rewrite <- Nat.add_succ_comm. apply IH; [lia|].
    by apply (compact_step_inv dur path l k st x).
Qed.

Lemma compact_spec dur path l :
  let c := compact dur path l in
  take (cI c) (cArr c) = filter (valid_at dur) l
  /\ cLog c = first_warning dur path l.
Proof.
  pose proof (compact_loop_inv dur path l (length l) 0
                (mkCompaction l 0 false [])) as Hinv.
  simpl in Hinv. fold (compact dur path l) in Hinv.
  destruct Hinv as [_ _ Htake _ Hlog _]; [lia| |].
  - split; simpl; done.
  - by rewrite firstn_all in Htake, Hlog.
Qed.

Lemma StronglySorted_filter {A : Type} (R : A -> A -> Prop) (P : A -> Prop)
    `{!forall x, Decision (P x)} (l : list A) :
  StronglySorted R l -> StronglySorted R (filter P l).
Proof.
  induction 1 as [|x l Hs IH Hx]; [constructor|].
  rewrite filter_cons. destruct (decide (P x)); [|done].
  constructor; [done|].
  rewrite Forall_forall in Hx |- *. intros y Hy.
  apply list_elem_of_filter in Hy as [_ Hy]. by apply Hx.
Qed.

Lemma at_less_sorted (l : list Action) :
  StronglySorted (fun a b => At a <= At b) (insertion_sort at_less l).
Proof.
  apply (insertion_sort_sorted at_less _ (fun _ => True)).
  - intros x y _ _. unfold at_less. rewrite Z.ltb_lt. lia.
  - intros x y _ _. unfold at_less. rewrite Z.ltb_ge. lia.
  - intros x y z _ _ _. lia.
  - by apply Forall_forall.
Qed.

Lemma at_less_stable (P : Action -> Prop) `{!forall x, Decision (P x)}
    (t : Z) (l : list Action) :
  filter (fun a => At a = t /\ P a) (insertion_sort at_less l)
  = filter (fun a => At a = t /\ P a) l.
Proof.
  apply insertion_sort_stable. intros x y [Hx _] [Hy _].
  unfold at_less. rewrite Z.ltb_ge. lia.
Qed.

(** The actions [LoadFunscriptData] keeps, for a document that has some. *)
Lemma LoadFunscriptData_actions dur path ver inv rng avg acts :
  fst (LoadFunscriptData dur path
         (Decodes (mkDecoded ver inv rng (Some acts) avg)))
  = inr (mkScript ver inv rng
           (filter (valid_at dur) (insertion_sort at_less acts)) avg).
Proof.
  simpl. by rewrite (proj1 (compact_spec dur path _)).
Qed.

(** The warning logged: one, for the first invalid timestamp of the sorted
    actions, or none. *)
Lemma LoadFunscriptData_warns_once dur path ver inv rng avg acts :
  snd (LoadFunscriptData dur path
         (Decodes (mkDecoded ver inv rng (Some acts) avg)))
  = first_warning dur path (insertion_sort at_less acts).
Proof.
  simpl. by rewrite (proj2 (compact_spec dur path _)).
Qed.

(** C2.  For every document with an [actions] list, [LoadFunscriptData]
    returns a script whose actions are sorted non-decreasingly by [At], are
    up to order exactly the actions of the input with [0 <= At < dur]
    (each as often as it occurs), keep the input order among equal
    timestamps, and are the valid ones of the sorted list in its order;
    for timestamps [-5, 10, 3000, 7000] and a duration of 5000 the
    timestamps kept are exactly [10, 3000]. *)
Theorem LoadFunscriptData_sorted_trimmed
    (dur : Z) (path ver : string) (inv : bool) (rng avg : Z)
    (acts : list Action) :
  exists script,
    fst (LoadFunscriptData dur path
           (Decodes (mkDecoded ver inv rng (Some acts) avg))) = inr script
    /\ StronglySorted (fun a b => At a <= At b) (Actions script)
    /\ Actions script ≡ₚ filter (valid_at dur) acts
    /\ (forall t, filter (fun a => At a = t) (Actions script)
                  = filter (fun a => At a = t) (filter (valid_at dur) acts))
    /\ (forall a, a ∈ Actions script <-> a ∈ acts /\ 0 <= At a < dur)
    /\ Actions script = filter (valid_at dur) (insertion_sort at_less acts)
    /\ (forall p1 p2 p3 p4 script',
          fst (LoadFunscriptData 5000 path
                 (decoded_of [rawAction (-5) p1; rawAction 10 p2;
                              rawAction 3000 p3; rawAction 7000 p4]))
          = inr script' ->
          Actions script' = [rawAction 10 p2; rawAction 3000 p3]).
Proof.
  eexists. split; [apply LoadFunscriptData_actions|]. cbn [Actions].
  split; [apply StronglySorted_filter, at_less_sorted|].
  split; [by rewrite insertion_sort_perm|].
  split.
  { intros t. rewrite !list_filter_filter. apply at_less_stable. }
  split.
  { intros a. rewrite list_elem_of_filter, insertion_sort_perm.
    unfold valid_at. tauto. }
  split; [done|].
  intros p1 p2 p3 p4 script'. unfold decoded_of.
  rewrite LoadFunscriptData_actions. intros [= <-]. reflexivity.
Qed.

(** ** The order of binary64 values

    [SFcompare] orders two values that are not NaN as the lexicographic
    order on a rank: the class (negative infinity, negative, zero,
    positive, positive infinity), then the exponent, then the mantissa,
    the last two negated for negative values. *)

Definition rank (x : float64) : Z * Z * Z :=
  match x with
  | S754_infinity true => (-2, 0, 0)
  | S754_finite true m e => (-1, - e, Zneg m)
  | S754_zero _ => (0, 0, 0)
  | S754_nan => (0, 0, 0)
  | S754_finite false m e => (1, e, Zpos m)
  | S754_infinity false => (2, 0, 0)
  end.

Definition rank_lt (a b : Z * Z * Z) : Prop :=
  let '(c1, e1, m1) := a in
  let '(c2, e2, m2) := b in
  c1 < c2 \/ (c1 = c2 /\ (e1 < e2 \/ (e1 = e2 /\ m1 < m2))).

Definition rank_le (a b : Z * Z * Z) : Prop := rank_lt a b \/ a = b.

Lemma compare_cont_Eq_spec (p q : positive) :
  Pos.compare_cont Eq p q = (Zpos p ?= Zpos q).
Proof. reflexivity. Qed.

Lemma SFcompare_rank (x y : float64) :
  F64.is_nan x = false -> F64.is_nan y = false ->
  exists c, SFcompare x y = Some c /\
    match c with
    | Lt => rank_lt (rank x) (rank y)
    | Eq => rank x = rank y
    | Gt => rank_lt (rank y) (rank x)
    end.
Proof.
  intros Hx Hy.
  destruct x as [sx|sx| |sx mx ex], y as [sy|sy| |sy my ey]; try discriminate;
    try destruct sx; try destruct sy; simpl;
    try (eexists; split; [reflexivity|]; simpl; first [reflexivity|lia]).
  - rewrite compare_cont_Eq_spec.
    destruct (Z.compare_spec ex ey), (Z.compare_spec (Zpos mx) (Zpos my));
      eexists; (split; [reflexivity|]); simpl; first [congruence|lia].
  - rewrite compare_cont_Eq_spec.
    destruct (Z.compare_spec ex ey), (Z.compare_spec (Zpos mx) (Zpos my));
      eexists; (split; [reflexivity|]); simpl; first [congruence|lia].
Qed.

Lemma ltb_rank (x y : float64) :
  F64.is_nan x = false -> F64.is_nan y = false ->
  F64.ltb x y = true <-> rank_lt (rank x) (rank y).
Proof.
  intros Hx Hy. destruct (SFcompare_rank x y Hx Hy) as (c & Hc & Hr).
  unfold F64.ltb, SFltb. rewrite Hc.
  destruct (rank x) as [[c1 e1] m1], (rank y) as [[c2 e2] m2].
  destruct c; simpl in *; split; intros; try done; try lia.
  injection Hr as -> -> ->. lia.
Qed.

Lemma leb_rank (x y : float64) :
  F64.is_nan x = false -> F64.is_nan y = false ->
  F64.leb x y = true <-> rank_le (rank x) (rank y).
Proof.
  intros Hx Hy. destruct (SFcompare_rank x y Hx Hy) as (c & Hc & Hr).
  unfold F64.leb, SFleb, rank_le. rewrite Hc.
  destruct (rank x) as [[c1 e1] m1], (rank y) as [[c2 e2] m2].
  destruct c; simpl in *; split; intros; try done; try tauto.
  - destruct H as [H|H]; [lia|]. injection H as -> -> ->. lia.
Qed.

Lemma rank_lt_trans a b c : rank_lt a b -> rank_lt b c -> rank_lt a c.
Proof.
  destruct a as [[? ?] ?], b as [[? ?] ?], c as [[? ?] ?]. simpl. lia.
Qed.

Lemma rank_le_trans a b c : rank_le a b -> rank_le b c -> rank_le a c.
Proof.
  intros [H1| ->] [H2| ->]; unfold rank_le; eauto using rank_lt_trans.
Qed.


Lemma ltb_nan_l (x y : float64) : F64.is_nan x = true -> F64.ltb x y = false.
Proof. by destruct x. Qed.

Lemma ltb_nan_r (x y : float64) : F64.is_nan y = true -> F64.ltb x y = false.
Proof. by destruct x, y. Qed.

Lemma leb_refl (x : float64) : F64.is_nan x = false -> F64.leb x x = true.
Proof. intros Hx. apply leb_rank; [done..|]. by right. Qed.



Lemma leb_trans (x y z : float64) :
  F64.is_nan x = false -> F64.is_nan y = false -> F64.is_nan z = false ->
  F64.leb x y = true -> F64.leb y z = true -> F64.leb x z = true.
Proof.
  intros Hx Hy Hz. rewrite !leb_rank by done. apply rank_le_trans.
Qed.

Lemma ltb_trans (x y z : float64) :
  F64.ltb x y = true -> F64.ltb y z = true -> F64.ltb x z = true.
Proof.
  intros Hxy Hyz.
  assert (F64.is_nan x = false) by (by destruct x).
  assert (F64.is_nan y = false) by (by destruct y).
  assert (F64.is_nan z = false) by (by destruct y, z).
  revert Hxy Hyz. rewrite !ltb_rank by done. apply rank_lt_trans.
Qed.

(** ** The median speed *)











(** *** The sort is done on the script's own slice *)





(** ** Rounding

    What [binary_round_aux] of [SpecFloat] does to a positive mantissa, in
    integers: the mantissa is shifted to 53 bits, rounded to one of its two
    neighbours, and renormalised; the operations of [F64] are read through
    it. *)

Lemma fexp_eq z : fexp F64.prec F64.emax z = Z.max (z - 53) (-1074).
Proof. reflexivity. Qed.

Lemma digits2_log2 (p : positive) : Zpos (digits2_pos p) = Z.log2 (Zpos p) + 1.
Proof.
  induction p as [p IH|p IH|]; [| |reflexivity].
  - change (digits2_pos p~1) with (Pos.succ (digits2_pos p)).
    rewrite Pos2Z.inj_succ, IH.
    change (Zpos p~1) with (2 * Zpos p + 1).
    rewrite Z.log2_succ_double by lia. lia.
  - change (digits2_pos p~0) with (Pos.succ (digits2_pos p)).
    rewrite Pos2Z.inj_succ, IH.
    change (Zpos p~0) with (2 * Zpos p).
    rewrite Z.log2_double by lia. lia.
Qed.

Lemma Zdigits2_log2 (m : Z) : 0 < m -> Zdigits2 m = Z.log2 m + 1.
Proof. destruct m; try lia. intros _. apply digits2_log2. Qed.

Lemma Zdigits2_bounds (m : Z) :
  0 < m -> 2 ^ (Zdigits2 m - 1) <= m < 2 ^ Zdigits2 m.
Proof.
  intros Hm. rewrite Zdigits2_log2 by done.
  replace (Z.log2 m + 1 - 1) with (Z.log2 m) by lia.
  pose proof (Z.log2_spec m Hm) as H. unfold Z.succ in H. exact H.
Qed.

Lemma Zdigits2_unique (m d : Z) :
  2 ^ (d - 1) <= m < 2 ^ d -> 0 < d -> Zdigits2 m = d.
Proof.
  intros H Hd.
  assert (0 < m). { pose proof (Z.pow_pos_nonneg 2 (d - 1)). lia. }
  rewrite Zdigits2_log2 by done.
  enough (Z.log2 m = d - 1) by lia.
  apply Z.log2_unique; [lia|]. unfold Z.succ. replace (d - 1 + 1) with d by lia. done.
Qed.

Lemma Zdigits2_pos (m : Z) : 0 < m -> 0 < Zdigits2 m.
Proof. intros. rewrite Zdigits2_log2 by done. pose proof (Z.log2_nonneg m). lia. Qed.

Lemma shr_1_m (mrs : shr_record) :
  0 <= shr_m mrs -> shr_m (shr_1 mrs) = shr_m mrs / 2.
Proof.
  destruct mrs as [m r s]. simpl. intros Hm.
  destruct m as [|[p|p|]|]; simpl; try lia; try reflexivity.
  - change (Zpos p~1) with (2 * Zpos p + 1).
    apply Z.div_unique with 1; lia.
  - change (Zpos p~0) with (2 * Zpos p).
    apply Z.div_unique with 0; lia.
Qed.

Lemma iter_shr_m (p : positive) (mrs : shr_record) :
  0 <= shr_m mrs ->
  shr_m (SpecFloat.iter_pos shr_1 p mrs) = shr_m mrs / 2 ^ Zpos p.
Proof.
  revert mrs. induction p as [p IH|p IH|]; intros mrs Hm; simpl.
  - assert (H1 : 0 <= shr_m (shr_1 mrs)).
    { rewrite shr_1_m by done. apply Z.div_pos; lia. }
    assert (H2 : 0 <= shr_m (SpecFloat.iter_pos shr_1 p (shr_1 mrs))).
    { rewrite IH by done. apply Z.div_pos; lia. }
    rewrite IH, IH, shr_1_m by done.
    rewrite !Z.div_div by lia. f_equal.
    replace (Z.pos p~1) with (1 + Z.pos p + Z.pos p) by lia.
    rewrite !Z.pow_add_r by lia. lia.
  - assert (H2 : 0 <= shr_m (SpecFloat.iter_pos shr_1 p mrs)).
    { rewrite IH by done. apply Z.div_pos; lia. }
    rewrite IH, IH by done.
    rewrite !Z.div_div by lia. f_equal.
    replace (Z.pos p~0) with (Z.pos p + Z.pos p) by lia.
    rewrite !Z.pow_add_r by lia. lia.
  - rewrite shr_1_m by done. reflexivity.
Qed.

Lemma rne_bounds (m : Z) (l : location) :
  m <= round_nearest_even m l <= m + 1.
Proof.
  destruct l as [|[]]; simpl; try lia. destruct (Z.even m); lia.
Qed.

(** The value binary_round_aux packs: mantissa [m2] at exponent [e2],
    renormalised when rounding carried into the next binade. *)
Definition pack (s : bool) (m2 e2 : Z) : float64 :=
  match m2 with
  | Z0 => S754_zero s
  | Zpos p =>
      if m2 <? 2 ^ 53 then
        if e2 <=? 971 then S754_finite s p e2 else S754_infinity s
      else if e2 + 1 <=? 971 then S754_finite s 4503599627370496 (e2 + 1)
      else S754_infinity s
  | Zneg _ => S754_nan
  end.

Lemma shr_first (m e n : Z) (l : location) :
  0 <= m -> 0 <= n ->
  exists mrs,
    shr (shr_record_of_loc m l) e n = (mrs, e + n)
    /\ shr_m mrs = m / 2 ^ n
    /\ (n = 0 -> loc_of_shr_record mrs = l).
Proof.
  intros Hm Hn. destruct n as [|p|p]; [| |lia].
  - exists (shr_record_of_loc m l). simpl. rewrite Z.add_0_r, Z.div_1_r.
    split; [done|]. split; [by destruct l as [|[]]|].
    intros _. by destruct l as [|[]].
  - eexists. simpl. split; [reflexivity|]. split; [|done].
    rewrite iter_shr_m; by destruct l as [|[]].
Qed.

Lemma bra_spec (s : bool) (m e : Z) (l : location) :
  0 < m ->
  let n := fexp F64.prec F64.emax (Zdigits2 m + e) - e in
  0 <= n ->
  exists m2,
    m / 2 ^ n <= m2 <= m / 2 ^ n + 1 /\ m2 <= 2 ^ 53
    /\ (2 ^ 52 <= m2 \/ e + n = -1074)
    /\ (l = loc_Exact -> n = 0 -> m2 = m)
    /\ binary_round_aux F64.prec F64.emax s m e l = pack s m2 (e + n).
Proof.
  intros Hm n Hn.
  unfold binary_round_aux, shr_fexp. fold n.
  destruct (shr_first m e n l) as (mrs & -> & Hmrs & Hloc); [lia|done|].
  set (m2 := round_nearest_even (shr_m mrs) (loc_of_shr_record mrs)).
  pose proof (rne_bounds (shr_m mrs) (loc_of_shr_record mrs)) as Hb.
  fold m2 in Hb. rewrite Hmrs in Hb.
  pose proof (Zdigits2_bounds m Hm) as Hd.
  assert (Hfe : e + n = fexp F64.prec F64.emax (Zdigits2 m + e)) by (unfold n; lia).
  rewrite fexp_eq in Hfe.
  assert (Hm1 : m / 2 ^ n < 2 ^ 53).
  { apply Z.div_lt_upper_bound; [lia|].
    rewrite <- Z.pow_add_r by lia.
    eapply Z.lt_le_trans; [apply Hd|]. apply Z.pow_le_mono_r; lia. }
  assert (Hm1' : 0 <= m / 2 ^ n) by (apply Z.div_pos; lia).
  exists m2. split; [done|]. split; [lia|]. split.
  { destruct (Z.max_spec (Zdigits2 m + e - 53) (-1074)) as [[? ?]|[? Hmax]];
      [right; lia|left].
    enough (2 ^ 52 <= m / 2 ^ n) by lia.
    apply Z.div_le_lower_bound; [lia|].
    rewrite <- Z.pow_add_r by lia.
    eapply Z.le_trans; [|apply Hd]. apply Z.pow_le_mono_r; lia. }
  split.
  { intros -> Hn0. unfold m2. rewrite Hloc, Hmrs, Hn0 by done. simpl.
    apply Z.div_1_r. }
  destruct (Z.eq_dec m2 0) as [E0|E0].
  { rewrite E0. simpl.
    destruct (fexp F64.prec F64.emax (0 + (e + n)) - (e + n)) as [|p|p]; simpl;
      try reflexivity.
    rewrite iter_shr_m by (simpl; lia). simpl. reflexivity. }
  destruct (Z.eq_dec m2 (2 ^ 53)) as [E1|E1].
  { rewrite E1. change (Zdigits2 (2 ^ 53)) with 54.
    rewrite fexp_eq.
    replace (Z.max (54 + (e + n) - 53) (-1074) - (e + n)) with 1 by lia.
    simpl. replace (e + n + 1 <=? 971) with (e + n + 1 <=? 1024 - 53) by done.
    reflexivity. }
  assert (Hm2 : 0 < m2 < 2 ^ 53) by lia.
  assert (Hd2 : Zdigits2 m2 <= 53).
  { rewrite Zdigits2_log2 by lia.
    enough (Z.log2 m2 < 53) by lia. apply Z.log2_lt_pow2; lia. }
  rewrite fexp_eq.
  assert (Hn2 : Z.max (Zdigits2 m2 + (e + n) - 53) (-1074) - (e + n) <= 0) by lia.
  destruct (Z.max (Zdigits2 m2 + (e + n) - 53) (-1074) - (e + n)) as [|p|p];
    [| lia |]; simpl; unfold pack; destruct m2 as [|p2|p2]; try lia;
    destruct (Z.ltb_spec (Zpos p2) (2 ^ 53)); try lia; reflexivity.
Qed.


(** ** Values as integers

    A finite value [m * 2^e] with [e >= -scale] is the integer
    [m * 2^(e + scale)]: the value in units of [2^-scale]. *)
Definition scale : Z := 2200.

Definition scaled (x : float64) : Z :=
  match x with
  | S754_finite s m e => (if s then -1 else 1) * (Zpos m * 2 ^ (e + scale))
  | _ => 0
  end.

Definition sign_of (s : bool) : Z := if s then -1 else 1.

Lemma scale_eq : scale = 2200.
Proof. reflexivity. Qed.

#[local] Ltac slia := pose proof scale_eq; lia.

Lemma pack_cases (s : bool) (m2 e2 : Z) :
  0 <= m2 <= 2 ^ 53 ->
  (m2 = 0 /\ pack s m2 e2 = S754_zero s)
  \/ (0 < m2 /\
      ((m2 < 2 ^ 53 /\ e2 <= 971 /\
        exists p, Zpos p = m2 /\ pack s m2 e2 = S754_finite s p e2)
       \/ (m2 = 2 ^ 53 /\ e2 <= 970 /\
           pack s m2 e2 = S754_finite s 4503599627370496 (e2 + 1))
       \/ ((971 < e2 \/ (m2 = 2 ^ 53 /\ 970 < e2)) /\
           pack s m2 e2 = S754_infinity s))).
Proof.
  intros Hm. unfold pack. destruct m2 as [|p|p]; [by left|right|lia].
  split; [lia|].
  destruct (Z.ltb_spec (Zpos p) (2 ^ 53)).
  - destruct (Z.leb_spec e2 971).
    + left. repeat split; try lia. by exists p.
    + right; right. split; [lia|done].
  - destruct (Z.leb_spec (e2 + 1) 971).
    + right; left. repeat split; lia.
    + right; right. split; [|done]. right. lia.
Qed.

Lemma pack_scaled (s : bool) (m2 e2 : Z) :
  0 <= m2 <= 2 ^ 53 -> - scale <= e2 ->
  F64.is_finite (pack s m2 e2) = true ->
  scaled (pack s m2 e2) = sign_of s * (m2 * 2 ^ (e2 + scale)).
Proof.
  intros Hm He Hf.
  destruct (pack_cases s m2 e2 Hm)
    as [[-> ->]|[Hpos [(?&?&p&<-&->)|[(->&?&->)|[_ Hinf]]]]]; simpl.
  - lia.
  - done.
  - unfold sign_of. replace (e2 + 1 + scale) with (1 + (e2 + scale)) by lia.
    rewrite Z.pow_add_r by (unfold scale in *; lia).
    change (2 ^ 1) with 2. lia.
  - rewrite Hinf in Hf. done.
Qed.

Lemma pack_valid (s : bool) (m2 e2 : Z) :
  0 <= m2 <= 2 ^ 53 -> (2 ^ 52 <= m2 \/ e2 = -1074) -> -1074 <= e2 ->
  F64.valid (pack s m2 e2) = true.
Proof.
  intros Hm Hn He.
  destruct (pack_cases s m2 e2 Hm)
    as [[-> ->]|[Hpos [(?&?&p&<-&->)|[(->&?&->)|[_ ->]]]]]; try done.
  - unfold F64.valid, valid_binary, bounded, canonical_mantissa.
    apply andb_true_iff. split; [|apply Z.leb_le; unfold F64.emax, F64.prec; lia].
    apply Z.eqb_eq. rewrite fexp_eq.
    change (Zpos (digits2_pos p)) with (Zdigits2 (Zpos p)).
    pose proof (Zdigits2_bounds (Zpos p) ltac:(lia)) as Hd.
    assert (Zdigits2 (Zpos p) <= 53).
    { destruct (Z.le_gt_cases (Zdigits2 (Zpos p)) 53); [done|].
      assert (2 ^ 53 <= 2 ^ (Zdigits2 (Zpos p) - 1))
        by (apply Z.pow_le_mono_r; lia). lia. }
    destruct Hn as [Hn| ->]; [|lia].
    assert (53 <= Zdigits2 (Zpos p)).
    { destruct (Z.le_gt_cases 53 (Zdigits2 (Zpos p))); [done|].
      assert (2 ^ Zdigits2 (Zpos p) <= 2 ^ 52)
        by (apply Z.pow_le_mono_r; lia). lia. }
    lia.
  - unfold F64.valid, valid_binary, bounded, canonical_mantissa.
    apply andb_true_iff. split; [|apply Z.leb_le; unfold F64.emax, F64.prec; lia].
    apply Z.eqb_eq. rewrite fexp_eq.
    change (Zpos (digits2_pos 4503599627370496)) with 53. lia.
Qed.

Lemma valid_finite_inv (s : bool) (m : positive) (e : Z) :
  F64.valid (S754_finite s m e) = true ->
  -1074 <= e <= 971 /\ Zpos m < 2 ^ 53 /\ (2 ^ 52 <= Zpos m \/ e = -1074).
Proof.
  unfold F64.valid, valid_binary, bounded, canonical_mantissa.
  rewrite andb_true_iff, Z.eqb_eq, Z.leb_le, fexp_eq.
  change (Zpos (digits2_pos m)) with (Zdigits2 (Zpos m)).
  unfold F64.emax, F64.prec. intros [Hc He].
  pose proof (Zdigits2_bounds (Zpos m) ltac:(lia)) as Hd.
  assert (Hd53 : Zdigits2 (Zpos m) <= 53) by lia.
  split; [lia|]. split.
  - eapply Z.lt_le_trans; [apply Hd|]. apply Z.pow_le_mono_r; lia.
  - destruct (Z.eq_dec e (-1074)); [by right|left].
    assert (Zdigits2 (Zpos m) = 53) as Hd' by lia.
    rewrite Hd' in Hd. apply Hd.
Qed.

Lemma pow2_pos (k : Z) : 0 <= k -> 0 < 2 ^ k.
Proof. intros. apply Z.pow_pos_nonneg; lia. Qed.

Lemma scaled_lt_exp (m1 m2 : positive) (e1 e2 : Z) :
  F64.valid (S754_finite false m1 e1) = true ->
  F64.valid (S754_finite false m2 e2) = true ->
  e1 < e2 ->
  Zpos m1 * 2 ^ (e1 + scale) < Zpos m2 * 2 ^ (e2 + scale).
Proof.
  intros H1 H2 He.
  apply valid_finite_inv in H1 as (He1 & Hm1 & _).
  apply valid_finite_inv in H2 as (He2 & _ & [Hm2|?]); [|lia].
  unfold scale.
  pose proof (pow2_pos (e1 + 2200) ltac:(lia)) as Hp1.
  assert (Hp : 2 ^ (e2 + 2200) = 2 ^ (e2 - e1) * 2 ^ (e1 + 2200)).
  { rewrite <- Z.pow_add_r by lia. f_equal. lia. }
  assert (Hp2 : 2 ^ 1 <= 2 ^ (e2 - e1)) by (apply Z.pow_le_mono_r; lia).
  change (2 ^ 1) with 2 in Hp2. rewrite Hp.
  change (2 ^ 53) with (2 * 2 ^ 52) in Hm1.
  nia.
Qed.

Lemma scaled_compare (x y : float64) :
  F64.valid x = true -> F64.valid y = true ->
  F64.is_finite x = true -> F64.is_finite y = true ->
  SFcompare x y = Some (scaled x ?= scaled y).
Proof.
  intros Vx Vy Fx Fy.
  destruct x as [sx|sx| |sx mx ex], y as [sy|sy| |sy my ey]; try discriminate.
  - reflexivity.
  - pose proof (valid_finite_inv _ _ _ Vy) as (He & _).
    pose proof (pow2_pos (ey + scale) ltac:(unfold scale; lia)).
    unfold scaled. cbn [SFcompare].
    destruct sy; f_equal; symmetry;
      [apply Z.compare_gt_iff|apply Z.compare_lt_iff]; nia.
  - pose proof (valid_finite_inv _ _ _ Vx) as (He & _).
    pose proof (pow2_pos (ex + scale) ltac:(unfold scale; lia)).
    unfold scaled. cbn [SFcompare].
    destruct sx; f_equal; symmetry;
      [apply Z.compare_lt_iff|apply Z.compare_gt_iff]; nia.
  - pose proof (valid_finite_inv _ _ _ Vx) as (Hex & _).
    pose proof (valid_finite_inv _ _ _ Vy) as (Hey & _).
    pose proof (pow2_pos (ex + scale) ltac:(unfold scale; lia)).
    pose proof (pow2_pos (ey + scale) ltac:(unfold scale; lia)).
    assert (Vx' : F64.valid (S754_finite false mx ex) = true) by exact Vx.
    assert (Vy' : F64.valid (S754_finite false my ey) = true) by exact Vy.
    unfold scaled. cbn [SFcompare]. rewrite compare_cont_Eq_spec.
    destruct sx, sy; f_equal; symmetry.
    + destruct (Z.compare_spec ex ey) as [->|Hlt|Hgt].
      * destruct (Z.compare_spec (Zpos mx) (Zpos my)) as [E|E|E]; cbn [CompOpp];
          [apply Z.compare_eq_iff|apply Z.compare_gt_iff|apply Z.compare_lt_iff];
          nia.
      * apply Z.compare_gt_iff.
        pose proof (scaled_lt_exp mx my ex ey Vx' Vy' Hlt). lia.
      * apply Z.compare_lt_iff.
        pose proof (scaled_lt_exp my mx ey ex Vy' Vx' Hgt). lia.
    + apply Z.compare_lt_iff. nia.
    + apply Z.compare_gt_iff. nia.
    + destruct (Z.compare_spec ex ey) as [->|Hlt|Hgt].
      * destruct (Z.compare_spec (Zpos mx) (Zpos my)) as [E|E|E];
          [apply Z.compare_eq_iff|apply Z.compare_lt_iff|apply Z.compare_gt_iff];
          nia.
      * apply Z.compare_lt_iff.
        pose proof (scaled_lt_exp mx my ex ey Vx' Vy' Hlt). lia.
      * apply Z.compare_gt_iff.
        pose proof (scaled_lt_exp my mx ey ex Vy' Vx' Hgt). lia.
Qed.

Lemma ltb_scaled (x y : float64) :
  F64.valid x = true -> F64.valid y = true ->
  F64.is_finite x = true -> F64.is_finite y = true ->
  F64.ltb x y = (scaled x <? scaled y).
Proof.
  intros. unfold F64.ltb, SFltb, Z.ltb. rewrite scaled_compare by done.
  by destruct (scaled x ?= scaled y).
Qed.

Lemma leb_scaled (x y : float64) :
  F64.valid x = true -> F64.valid y = true ->
  F64.is_finite x = true -> F64.is_finite y = true ->
  F64.leb x y = (scaled x <=? scaled y).
Proof.
  intros. unfold F64.leb, SFleb, Z.leb. rewrite scaled_compare by done.
  by destruct (scaled x ?= scaled y).
Qed.

Lemma iter_xO (m d : positive) : Zpos (Pos.iter xO m d) = Zpos m * 2 ^ Zpos d.
Proof.
  induction d as [|d IH] using Pos.peano_ind.
  - simpl. lia.
  - rewrite Pos.iter_succ, Pos2Z.inj_xO, IH, Pos2Z.inj_succ, Z.pow_succ_r by lia.
    lia.
Qed.

Lemma shl_align_spec (mx : positive) (ex ex' : Z) :
  snd (shl_align mx ex ex') = Z.min ex ex'
  /\ Zpos (fst (shl_align mx ex ex')) = Zpos mx * 2 ^ (ex - Z.min ex ex').
Proof.
  unfold shl_align. destruct (ex' - ex) as [|d|d] eqn:E; simpl.
  - replace (Z.min ex ex') with ex by lia. rewrite Z.sub_diag. simpl. lia.
  - replace (Z.min ex ex') with ex by lia. rewrite Z.sub_diag. simpl. lia.
  - replace (Z.min ex ex') with ex' by lia. rewrite iter_xO.
    split; [done|]. do 2 f_equal. lia.
Qed.

Lemma Zdigits2_shift (m k : Z) :
  0 < m -> 0 <= k -> Zdigits2 (m * 2 ^ k) = Zdigits2 m + k.
Proof.
  intros Hm Hk. pose proof (pow2_pos k Hk).
  rewrite !Zdigits2_log2 by nia. rewrite Z.log2_mul_pow2 by lia. lia.
Qed.

Lemma Zdigits2_mono (a b : Z) : 0 < a <= b -> Zdigits2 a <= Zdigits2 b.
Proof.
  intros H. rewrite !Zdigits2_log2 by lia.
  pose proof (Z.log2_le_mono a b). lia.
Qed.

Lemma Zdigits2_le (m d : Z) : 0 < m -> m < 2 ^ d -> Zdigits2 m <= d.
Proof.
  intros Hm Hd. rewrite Zdigits2_log2 by done.
  destruct (Z.le_gt_cases d 0).
  - assert (2 ^ d <= 2 ^ 0) by (apply Z.pow_le_mono_r; lia). simpl in *. lia.
  - enough (Z.log2 m < d) by lia. apply Z.log2_lt_pow2; lia.
Qed.

Lemma Zdigits2_ge (m d : Z) : 0 <= d -> 2 ^ d <= m -> d + 1 <= Zdigits2 m.
Proof.
  intros Hd Hm. pose proof (pow2_pos d Hd).
  rewrite Zdigits2_log2 by lia.
  enough (d <= Z.log2 m) by lia. apply Z.log2_le_pow2; lia.
Qed.

(** [binary_round]: the mantissa is first aligned on the exponent of its
    binade, exactly when that only appends zeros. *)
Lemma binary_round_spec (s : bool) (mx : positive) (ex : Z) :
  let F := fexp F64.prec F64.emax (Zdigits2 (Zpos mx) + ex) in
  exists m2,
    (F <= ex -> m2 = Zpos mx * 2 ^ (ex - F))
    /\ (ex < F -> Zpos mx / 2 ^ (F - ex) <= m2 <= Zpos mx / 2 ^ (F - ex) + 1)
    /\ 0 <= m2 <= 2 ^ 53
    /\ (2 ^ 52 <= m2 \/ F = -1074)
    /\ binary_round F64.prec F64.emax s mx ex = pack s m2 F.
Proof.
  intros F. unfold binary_round.
  change (Zpos (digits2_pos mx)) with (Zdigits2 (Zpos mx)). fold F.
  destruct (shl_align_spec mx ex F) as [Hez Hmz].
  destruct (shl_align mx ex F) as [mz ez]. simpl in Hez, Hmz.
  assert (Hdg : Zdigits2 (Zpos mz) + ez = Zdigits2 (Zpos mx) + ex).
  { rewrite Hmz, Zdigits2_shift by lia. lia. }
  destruct (bra_spec s (Zpos mz) ez loc_Exact ltac:(lia))
    as (m2 & Hb & H53 & Hn & Hex & ->).
  { rewrite Hdg. fold F. lia. }
  rewrite Hdg in *. fold F in Hb, Hn, Hex |- *.
  assert (0 <= Zpos mz / 2 ^ (F - ez)) by (apply Z.div_pos; lia).
  exists m2. replace (ez + (F - ez)) with F in * by lia.
  split; [|split; [|split; [lia|split; [done|done]]]].
  - intros HF. rewrite Hex, Hmz; [|done|lia]. do 2 f_equal. lia.
  - intros HF. replace ez with ex in * by lia.
    rewrite Hmz in Hb. replace (ex - Z.min ex F) with 0 in Hb by lia.
    rewrite Z.mul_1_r in Hb. done.
Qed.

(** A normal value: sign [s], exponent [e], a mantissa of 53 bits. *)
Definition normal (s : bool) (x : float64) (e : Z) : Prop :=
  exists m, x = S754_finite s m e
            /\ 2 ^ 52 <= Zpos m < 2 ^ 53 /\ -1074 <= e <= 971.

Lemma normal_valid s x e : normal s x e -> F64.valid x = true.
Proof.
  intros (m & -> & Hm & He).
  assert (H := pack_valid s (Zpos m) e ltac:(lia) ltac:(lia) ltac:(lia)).
  destruct (pack_cases s (Zpos m) e ltac:(lia))
    as [[? _]|[_ [(_&_&p&Hp&Hpk)|[(?&_)|[[?|[? _]] _]]]]]; try lia.
  injection Hp as ->. by rewrite Hpk in H.
Qed.

Lemma normal_finite s x e : normal s x e -> F64.is_finite x = true.
Proof. by intros (m & -> & _). Qed.

Lemma normal_scaled s x e :
  normal s x e ->
  exists m, 2 ^ 52 <= m < 2 ^ 53 /\ scaled x = sign_of s * (m * 2 ^ (e + scale)).
Proof. intros (m & -> & Hm & He). exists (Zpos m). by destruct s. Qed.

Lemma pack_normal (s : bool) (m2 e2 : Z) :
  2 ^ 52 <= m2 <= 2 ^ 53 -> -1074 <= e2 <= 970 ->
  exists e, e2 <= e <= e2 + 1 /\ normal s (pack s m2 e2) e
            /\ scaled (pack s m2 e2) = sign_of s * (m2 * 2 ^ (e2 + scale)).
Proof.
  intros Hm He.
  assert (Hsc : F64.is_finite (pack s m2 e2) = true ->
                scaled (pack s m2 e2) = sign_of s * (m2 * 2 ^ (e2 + scale))).
  { apply pack_scaled; unfold scale; lia. }
  destruct (pack_cases s m2 e2 ltac:(lia))
    as [[? _]|[_ [(?&?&p&Hp&Hpk)|[(?&?&Hpk)|[[?|[? ?]] _]]]]]; try lia.
  - exists e2. split; [lia|]. rewrite Hpk in *. split; [|by apply Hsc].
    exists p. split; [done|]. lia.
  - exists (e2 + 1). split; [lia|]. rewrite Hpk in *. split; [|by apply Hsc].
    eexists. split; [done|]. split; [by cbv|lia].
Qed.

Lemma bra_opp (m e : Z) (l : location) :
  binary_round_aux F64.prec F64.emax true m e l
  = SFopp (binary_round_aux F64.prec F64.emax false m e l).
Proof.
  unfold binary_round_aux.
  destruct (shr_fexp _ _ m e l) as [mrs e1].
  destruct (shr_fexp _ _ _ e1 loc_Exact) as [mrs' e2].
  destruct (shr_m mrs'); simpl; try done. by destruct (e2 <=? _).
Qed.

Lemma binary_round_opp (m : positive) (e : Z) :
  binary_round F64.prec F64.emax true m e
  = SFopp (binary_round F64.prec F64.emax false m e).
Proof.
  unfold binary_round. destruct (shl_align _ _ _) as [mz ez]. apply bra_opp.
Qed.

Lemma SFopp_involutive (x : float64) : SFopp (SFopp x) = x.
Proof. destruct x as [[]|[]| |[] ? ?]; reflexivity. Qed.

Lemma of_int_opp (z : Z) : F64.of_int (- z) = SFopp (F64.of_int z) \/ z = 0.
Proof.
  destruct z as [|p|p]; [by right|left..]; unfold F64.of_int; simpl.
  - apply binary_round_opp.
  - by rewrite binary_round_opp, SFopp_involutive.
Qed.

Lemma abs_opp (x : float64) : F64.abs (SFopp x) = F64.abs x.
Proof. by destruct x. Qed.

Lemma of_int_pos_normal (z : Z) :
  0 < z < 2 ^ 1000 ->
  exists e, Zdigits2 z - 53 <= e <= Zdigits2 z - 52
            /\ normal false (F64.of_int z) e.
Proof.
  intros Hz. destruct z as [|p|p]; try lia.
  unfold F64.of_int, binary_normalize.
  destruct (binary_round_spec false p 0) as (m2 & Hex & Hin & Hm2 & Hn & ->).
  rewrite fexp_eq in *. rewrite Z.add_0_r in *.
  pose proof (Zdigits2_pos (Zpos p) ltac:(lia)) as Hd.
  pose proof (Zdigits2_le (Zpos p) 1000 ltac:(lia) ltac:(lia)) as Hd'.
  replace (Z.max (Zdigits2 (Zpos p) - 53) (-1074))
    with (Zdigits2 (Zpos p) - 53) in * by lia.
  destruct Hn as [Hn|?]; [|lia].
  destruct (pack_normal false m2 (Zdigits2 (Zpos p) - 53)) as (e & He & Hnm & _);
    [lia|lia|].
  exists e. split; [lia|done].
Qed.

Lemma of_int_pos_exact (z : Z) :
  0 < z < 2 ^ 53 ->
  normal false (F64.of_int z) (Zdigits2 z - 53)
  /\ scaled (F64.of_int z) = z * 2 ^ scale.
Proof.
  intros Hz. destruct z as [|p|p]; try lia.
  unfold F64.of_int, binary_normalize.
  destruct (binary_round_spec false p 0) as (m2 & Hex & Hin & Hm2 & Hn & ->).
  rewrite fexp_eq in *. rewrite Z.add_0_r in *.
  pose proof (Zdigits2_pos (Zpos p) ltac:(lia)) as Hd.
  pose proof (Zdigits2_le (Zpos p) 53 ltac:(lia) ltac:(lia)) as Hd'.
  pose proof (Zdigits2_bounds (Zpos p) ltac:(lia)) as Hb.
  replace (Z.max (Zdigits2 (Zpos p) - 53) (-1074))
    with (Zdigits2 (Zpos p) - 53) in * by lia.
  destruct Hn as [Hn|?]; [|lia].
  specialize (Hex ltac:(lia)).
  assert (Hlt : m2 < 2 ^ 53).
  { rewrite Hex.
    replace (2 ^ 53) with (2 ^ Zdigits2 (Zpos p) * 2 ^ (0 - (Zdigits2 (Zpos p) - 53))).
    - apply Z.mul_lt_mono_pos_r; [apply pow2_pos; lia|apply Hb].
    - rewrite <- Z.pow_add_r by lia. f_equal. lia. }
  destruct (pack_cases false m2 (Zdigits2 (Zpos p) - 53) ltac:(lia))
    as [[? _]|[_ [(?&?&q&Hq&Hpk)|[(?&?&Hpk)|[[?|[? ?]] _]]]]]; try lia.
  rewrite Hpk. split.
  - exists q. split; [done|]. lia.
  - simpl. rewrite Hq, Hex, <- Z.mul_assoc, <- Z.pow_add_r by (unfold scale; lia).
    change (Z.pos (digits2_pos p)) with (Zdigits2 (Zpos p)).
    rewrite Z.mul_1_l. do 2 f_equal. lia.
Qed.

Lemma quotient_bracket (N D q r P t s m2 : Z) :
  0 < D -> N = D * q + r -> 0 <= r < D ->
  0 < P -> q = P * t + s -> 0 <= s < P ->
  t <= m2 <= t + 1 -> 0 <= t ->
  ((m2 - 1) * (P * D) <= N < (m2 + 1) * (P * D))
  /\ (forall G, G * (P * D) <= N -> G <= m2)
  /\ t * (P * D) <= N.
Proof.
  intros HD HN Hr HP Hq Hs Hm Ht.
  assert (Hlo : t * (P * D) <= N).
  { subst N q.
    assert (0 <= D * s) by (apply Z.mul_nonneg_nonneg; lia).
    replace (D * (P * t + s) + r) with (t * (P * D) + (D * s + r)) by ring.
    lia. }
  assert (Hhi : N < (t + 1) * (P * D)).
  { subst N q.
    assert (D * (s + 1) <= D * P) by (apply Z.mul_le_mono_nonneg_l; lia).
    replace (D * (P * t + s) + r) with (t * (P * D) + (D * s + r)) by ring.
    replace ((t + 1) * (P * D)) with (t * (P * D) + D * P) by ring.
    replace (D * (s + 1)) with (D * s + D) in * by ring. lia. }
  assert (HPD : 0 < P * D) by (apply Z.mul_pos_pos; lia).
  split; [split|split].
  - apply Z.le_trans with (t * (P * D)); [|done].
    apply Z.mul_le_mono_nonneg_r; lia.
  - apply Z.lt_le_trans with ((t + 1) * (P * D)); [done|].
    apply Z.mul_le_mono_nonneg_r; lia.
  - intros G HG. destruct (Z.le_gt_cases G t) as [?|Hgt]; [lia|exfalso].
    assert ((t + 1) * (P * D) <= G * (P * D))
      by (apply Z.mul_le_mono_nonneg_r; lia). lia.
  - done.
Qed.

Lemma quotient_range (mx my q r : Z) :
  2 ^ 52 <= mx < 2 ^ 53 -> 2 ^ 52 <= my < 2 ^ 53 ->
  mx * 2 ^ 53 = my * q + r -> 0 <= r < my ->
  2 ^ 52 <= q < 2 ^ 54.
Proof.
  change (2 ^ 52) with 4503599627370496.
  change (2 ^ 53) with 9007199254740992.
  change (2 ^ 54) with 18014398509481984.
  intros Hmx Hmy Hq Hr. split.
  - destruct (Z.le_gt_cases 4503599627370496 q) as [?|Hlt]; [done|exfalso].
    assert (my * (q + 1) <= my * 4503599627370496)
      by (apply Z.mul_le_mono_nonneg_l; lia).
    replace (my * (q + 1)) with (my * q + my) in * by ring. lia.
  - destruct (Z.lt_ge_cases q 18014398509481984) as [?|Hge]; [done|exfalso].
    assert (my * 18014398509481984 <= my * q)
      by (apply Z.mul_le_mono_nonneg_l; lia). lia.
Qed.

(** Division of two normal values whose quotient is in the normal range:
    the mantissa packed is within one unit of the exact quotient, and at
    least every integer below it. *)
Lemma div_spec (sx sy : bool) (mx my : positive) (ex ey : Z) :
  2 ^ 52 <= Zpos mx < 2 ^ 53 -> 2 ^ 52 <= Zpos my < 2 ^ 53 ->
  -1074 <= ex - ey - 53 ->
  exists n m2,
    (n = 0 \/ n = 1)
    /\ 2 ^ 52 <= m2 <= 2 ^ 53
    /\ (m2 - 1) * (2 ^ n * Zpos my) <= Zpos mx * 2 ^ 53
       < (m2 + 1) * (2 ^ n * Zpos my)
    /\ (forall G, G * (2 ^ n * Zpos my) <= Zpos mx * 2 ^ 53 -> G <= m2)
    /\ 2 ^ 52 * (2 ^ n * Zpos my) <= Zpos mx * 2 ^ 53
    /\ F64.div (S754_finite sx mx ex) (S754_finite sy my ey)
       = pack (xorb sx sy) m2 (ex - ey - 53 + n).
Proof.
  intros Hmx Hmy He.
  unfold F64.div, SFdiv, SFdiv_core_binary.
  rewrite (Zdigits2_unique (Zpos mx) 53), (Zdigits2_unique (Zpos my) 53)
    by (simpl; lia).
  rewrite fexp_eq.
  replace (Z.min (Z.max (53 + ex - (53 + ey) - 53) (-1074)) (ex - ey))
    with (ex - ey - 53) by lia.
  replace (ex - ey - (ex - ey - 53)) with 53 by lia.
  rewrite Z.shiftl_mul_pow2 by lia.
  pose proof (Z_div_mod (Zpos mx * 2 ^ 53) (Zpos my) ltac:(lia)) as Hdm.
  destruct (Z.div_eucl (Zpos mx * 2 ^ 53) (Zpos my)) as [q r].
  destruct Hdm as [Hq Hr].
  pose proof (quotient_range _ _ _ _ Hmx Hmy Hq Hr) as [Hq1 Hq2].
  assert (Hdq : 53 <= Zdigits2 q <= 54).
  { split; [apply (Zdigits2_ge q 52); lia|apply Zdigits2_le; lia]. }
  destruct (bra_spec (xorb sx sy) q (ex - ey - 53) (new_location (Zpos my) r)
              ltac:(lia)) as (m2 & Hb & H53 & Hn & _ & ->).
  { rewrite fexp_eq. lia. }
  rewrite fexp_eq in *.
  replace (Z.max (Zdigits2 q + (ex - ey - 53) - 53) (-1074) - (ex - ey - 53))
    with (Zdigits2 q - 53) in * by lia.
  exists (Zdigits2 q - 53), m2.
  set (n := Zdigits2 q - 53) in *.
  assert (Hn01 : n = 0 \/ n = 1) by lia.
  assert (Hpn : 0 < 2 ^ n) by (apply pow2_pos; lia).
  pose proof (Z.div_mod q (2 ^ n) ltac:(lia)) as Hqn.
  pose proof (Z.mod_pos_bound q (2 ^ n) Hpn) as Hqr.
  assert (Hlow : 2 ^ 52 <= q / 2 ^ n).
  { pose proof (Zdigits2_bounds q ltac:(lia)) as Hbq.
    apply Z.div_le_lower_bound; [lia|].
    rewrite <- Z.pow_add_r by lia.
    eapply Z.le_trans; [|apply Hbq]. apply Z.pow_le_mono_r; lia. }
  destruct (quotient_bracket (Zpos mx * 2 ^ 53) (Zpos my) q r (2 ^ n)
              (q / 2 ^ n) (q mod 2 ^ n) m2) as (HU & HG & Hq52);
    try done; try lia.
  split; [done|]. split; [lia|]. split; [done|]. split; [done|]. split.
  - apply Z.le_trans with (q / 2 ^ n * (2 ^ n * Zpos my)); [|done].
    apply Z.mul_le_mono_nonneg_r; lia.
  - reflexivity.
Qed.

Lemma trunc_scaled (s : bool) (m : positive) (e : Z) :
  - scale <= e ->
  F64.trunc (S754_finite s m e)
  = Some (sign_of s * (Zpos m * 2 ^ (e + scale) / 2 ^ scale)).
Proof.
  intros He. unfold F64.trunc.
  assert (Hs : 0 < 2 ^ scale) by (apply pow2_pos; slia).
  assert (Hv : match e with
               | Zneg k => Z.shiftr (Zpos m) (Zpos k)
               | _ => Z.shiftl (Zpos m) e
               end = Zpos m * 2 ^ (e + scale) / 2 ^ scale).
  { destruct e as [|k|k].
    - rewrite Z.shiftl_0_r, Z.add_0_l, Z.div_mul; lia.
    - rewrite Z.shiftl_mul_pow2, Z.pow_add_r, Z.mul_assoc, Z.div_mul; slia.
    - rewrite Z.shiftr_div_pow2 by lia.
      replace (2 ^ scale) with (2 ^ Zpos k * 2 ^ (Zneg k + scale)).
      + rewrite Z.div_mul_cancel_r; [done|lia|].
        pose proof (pow2_pos (Zneg k + scale)); lia.
      + rewrite <- Z.pow_add_r by lia. f_equal. lia. }
  rewrite Hv. unfold sign_of. destruct s; f_equal; lia.
Qed.

Lemma trunc_small (x : float64) (e : Z) :
  normal false x e -> scaled x < 2 ^ scale -> F64.to_int64 x = 0.
Proof.
  intros (m & -> & Hm & He) Hs. unfold F64.to_int64.
  rewrite trunc_scaled by slia. simpl in Hs.
  rewrite Z.div_small; [done|]. lia.
Qed.

Lemma bounds_cancel (U V P : Z) :
  0 < P -> - (V * P) <= U * P <= V * P -> - V <= U <= V.
Proof.
  intros HP [H1 H2]. rewrite <- Z.mul_opp_l in H1.
  split; eapply Z.mul_le_mono_pos_r; eauto.
Qed.

Lemma bounds_scale (U V P : Z) :
  0 <= P -> - V <= U <= V -> - (V * P) <= U * P <= V * P.
Proof.
  intros HP [H1 H2]. rewrite <- Z.mul_opp_l.
  split; apply Z.mul_le_mono_nonneg_r; done.
Qed.

(** The quotient of two integers below 2^53, each converted exactly: it
    is normal, and off the exact quotient by at most one part in 2^52. *)
Lemma div_int_spec (a b : Z) :
  0 < a < 2 ^ 53 -> 0 < b < 2 ^ 53 ->
  exists e,
    normal false (F64.div (F64.of_int a) (F64.of_int b)) e
    /\ - (a * 2 ^ scale)
       <= 2 ^ 52 * (scaled (F64.div (F64.of_int a) (F64.of_int b)) * b
                    - a * 2 ^ scale)
       <= a * 2 ^ scale.
Proof.
  intros Ha Hb.
  destruct (of_int_pos_exact a Ha) as [(ma & Ea & Hma & _) Sa].
  destruct (of_int_pos_exact b Hb) as [(mb & Eb & Hmb & _) Sb].
  rewrite Ea in Sa. rewrite Eb in Sb. rewrite Ea, Eb.
  simpl in Sa, Sb. rewrite Z.mul_1_l in Sa, Sb.
  pose proof (Zdigits2_pos a ltac:(lia)) as Hda.
  pose proof (Zdigits2_pos b ltac:(lia)) as Hdb.
  pose proof (Zdigits2_le a 53 ltac:(lia) ltac:(lia)) as Hda'.
  pose proof (Zdigits2_le b 53 ltac:(lia) ltac:(lia)) as Hdb'.
  set (da := Zdigits2 a) in *. set (db := Zdigits2 b) in *.
  destruct (div_spec false false ma mb (da - 53) (db - 53) Hma Hmb ltac:(lia))
    as (n & m2 & Hn & Hm2 & [HU1 HU2] & _ & Hq & Hdiv).
  cbn [xorb] in Hdiv. rewrite Hdiv.
  destruct (pack_normal false m2 (da - 53 - (db - 53) - 53 + n))
    as (e & He & Hnorm & Hsc); [lia|lia|].
  exists e. split; [done|]. rewrite Hsc. unfold sign_of. rewrite Z.mul_1_l.
  assert (Hs : 0 < 2 ^ scale) by (apply pow2_pos; slia).
  set (T := 2 ^ (da - 106 + 2 * scale)).
  assert (HT : 0 < T) by (apply pow2_pos; slia).
  set (Pr := 2 ^ (da - 53 - (db - 53) - 53 + n + scale)) in *.
  set (Pa := 2 ^ (da - 53 + scale)) in *.
  set (Pb := 2 ^ (db - 53 + scale)) in *.
  assert (Hrb : Pr * Pb = 2 ^ n * T).
  { unfold Pr, Pb, T. rewrite <- !Z.pow_add_r by slia. f_equal. lia. }
  assert (Hap : Pa * 2 ^ scale = 2 ^ 53 * T).
  { unfold Pa, T. rewrite <- !Z.pow_add_r by slia. f_equal. lia. }
  set (X := 2 ^ n * Zpos mb) in *. set (Y := Zpos ma * 2 ^ 53) in *.
  assert (E1 : m2 * Pr * (b * 2 ^ scale) = m2 * X * T).
  { rewrite <- Sb. unfold X.
    transitivity (m2 * Zpos mb * (Pr * Pb)); [ring|]. rewrite Hrb. ring. }
  assert (E2 : a * 2 ^ scale * 2 ^ scale = Y * T).
  { rewrite <- Sa. unfold Y.
    transitivity (Zpos ma * (Pa * 2 ^ scale)); [ring|]. rewrite Hap. ring. }
  assert (Hlin : - Y <= 2 ^ 52 * (m2 * X - Y) <= Y).
  { clear - HU1 HU2 Hq. change (2 ^ 52) with 4503599627370496 in *.
    set (W := m2 * X) in *.
    replace ((m2 - 1) * X) with (W - X) in HU1 by (unfold W; ring).
    replace ((m2 + 1) * X) with (W + X) in HU2 by (unfold W; ring).
    lia. }
  apply (bounds_cancel _ _ (2 ^ scale) Hs).
  replace (2 ^ 52 * (m2 * Pr * b - a * 2 ^ scale) * 2 ^ scale)
    with (2 ^ 52 * (m2 * X - Y) * T)
    by (transitivity (2 ^ 52 * (m2 * Pr * (b * 2 ^ scale)
                                - a * 2 ^ scale * 2 ^ scale));
        [rewrite E1, E2; ring|ring]).
  rewrite E2. apply bounds_scale; [lia|done].
Qed.

Lemma of_int_0 : F64.of_int 0 = S754_zero false.
Proof. reflexivity. Qed.

Lemma div_zero_normal (s : bool) (y : float64) (e : Z) :
  normal s y e -> F64.div (S754_zero false) y = S754_zero s.
Proof. intros (m & -> & _). reflexivity. Qed.

Lemma div_self (s : bool) (m : positive) (e : Z) :
  F64.div (S754_finite s m e) (S754_finite s m e) = F64.of_int 1.
Proof.
  unfold F64.div, SFdiv, SFdiv_core_binary.
  replace (Zdigits2 (Zpos m) + e - (Zdigits2 (Zpos m) + e)) with 0 by lia.
  replace (e - e) with 0 by lia.
  change (Z.min (fexp F64.prec F64.emax 0) 0) with (-53).
  change (0 - -53) with 53. cbv iota beta.
  rewrite Z.shiftl_mul_pow2 by lia.
  pose proof (Z_div_mod (Zpos m * 2 ^ 53) (Zpos m) ltac:(lia)) as Hdm.
  destruct (Z.div_eucl (Zpos m * 2 ^ 53) (Zpos m)) as [q r].
  destruct Hdm as [Hq Hr].
  assert (q = 2 ^ 53 /\ r = 0) as [-> ->].
  { assert (Hr0 : r = Zpos m * (2 ^ 53 - q)) by lia.
    assert (Hc : 2 ^ 53 - q = 0); [|split; lia].
    destruct (Z.lt_trichotomy (2 ^ 53 - q) 0) as [?|[?|?]]; [|done|]; nia. }
  replace (xorb s s) with false by (by destruct s).
  assert (Hl : new_location (Zpos m) 0 = loc_Exact).
  { unfold new_location. by destruct (Z.even (Zpos m)). }
  rewrite Hl. reflexivity.
Qed.

(** [segmentTS] is zero: the quotient [i / numSegments] of the bin index
    is below one. *)
Lemma segmentTS_zero (numSegments : Z) (i : nat) :
  0 < numSegments < 2 ^ 50 -> Z.of_nat i < numSegments ->
  segmentTS numSegments i = 0.
Proof.
  intros Hn Hi. unfold segmentTS.
  destruct (of_int_pos_exact numSegments ltac:(lia)) as [Hnn _].
  destruct (Z.eq_dec (Z.of_nat i) 0) as [->|Hi0].
  - rewrite of_int_0, (div_zero_normal _ _ _ Hnn). reflexivity.
  - destruct (div_int_spec (Z.of_nat i) numSegments ltac:(lia) ltac:(lia))
      as (e & Hnorm & Hlo & Hhi).
    apply (trunc_small _ e Hnorm).
    set (sr := scaled _) in *.
    assert (Hs : 0 < 2 ^ scale) by (apply pow2_pos; pose proof scale_eq; lia).
    destruct (Z.lt_ge_cases sr (2 ^ scale)) as [?|Hge]; [done|exfalso].
    change (2 ^ 50) with 1125899906842624 in *.
    change (2 ^ 52) with 4503599627370496 in *.
    nia.
Qed.

Lemma position_lt (M i j : Z) :
  0 < M < 2 ^ 50 -> 0 <= i < j -> j <= M ->
  F64.ltb (F64.div (F64.of_int i) (F64.of_int M))
          (F64.div (F64.of_int j) (F64.of_int M)) = true.
Proof.
  intros HM Hij HjM.
  destruct (of_int_pos_exact M ltac:(lia)) as [HnM _].
  destruct (div_int_spec j M ltac:(lia) ltac:(lia)) as (ej & Hnj & Hloj & Hhij).
  destruct (Z.eq_dec i 0) as [->|Hi0].
  - rewrite of_int_0, (div_zero_normal _ _ _ HnM).
    destruct Hnj as (m & -> & _). reflexivity.
  - destruct (div_int_spec i M ltac:(lia) ltac:(lia)) as (ei & Hni & Hloi & Hhii).
    rewrite ltb_scaled by eauto using normal_valid, normal_finite.
    apply Z.ltb_lt.
    set (si := scaled (F64.div (F64.of_int i) _)) in *.
    set (sj := scaled (F64.div (F64.of_int j) _)) in *.
    assert (Hs : 0 < 2 ^ scale) by (apply pow2_pos; pose proof scale_eq; lia).
    destruct (Z.lt_ge_cases si sj) as [?|Hge]; [done|exfalso].
    change (2 ^ 50) with 1125899906842624 in *.
    change (2 ^ 52) with 4503599627370496 in *.
    assert (4503599627370496 * (sj * M) <= 4503599627370496 * (si * M)) by nia.
    assert (4503599627370495 * (j * 2 ^ scale)
            <= 4503599627370497 * (i * 2 ^ scale)) by lia.
    assert (4503599627370495 * j <= 4503599627370497 * i) by nia.
    lia.
Qed.

Lemma div_normal (sx sy : bool) (x y : float64) (ex ey : Z) :
  normal sx x ex -> normal sy y ey ->
  -1021 <= ex - ey <= 1022 ->
  exists e, ex - ey - 53 <= e <= ex - ey - 51
            /\ normal (xorb sx sy) (F64.div x y) e.
Proof.
  intros (mx & -> & Hmx & Hex) (my & -> & Hmy & Hey) He.
  destruct (div_spec sx sy mx my ex ey Hmx Hmy ltac:(lia))
    as (n & m2 & Hn & Hm2 & _ & _ & _ & ->).
  destruct (pack_normal (xorb sx sy) m2 (ex - ey - 53 + n))
    as (e & He' & Hnorm & _); [lia|lia|].
  exists e. split; [lia|done].
Qed.

Lemma mul_normal (sx sy : bool) (x y : float64) (ex ey : Z) :
  normal sx x ex -> normal sy y ey ->
  -1125 <= ex + ey <= 917 ->
  exists e, ex + ey + 52 <= e <= ex + ey + 54
            /\ normal (xorb sx sy) (F64.mul x y) e.
Proof.
  intros (mx & -> & Hmx & Hex) (my & -> & Hmy & Hey) He.
  unfold F64.mul, SFmul.
  assert (Hm : 2 ^ 104 <= Zpos (mx * my) < 2 ^ 106).
  { rewrite Pos2Z.inj_mul.
    change (2 ^ 104) with (2 ^ 52 * 2 ^ 52).
    change (2 ^ 106) with (2 ^ 53 * 2 ^ 53). nia. }
  assert (Hd : 105 <= Zdigits2 (Zpos (mx * my)) <= 106).
  { split; [apply (Zdigits2_ge _ 104); lia|apply Zdigits2_le; lia]. }
  destruct (bra_spec (xorb sx sy) (Zpos (mx * my)) (ex + ey) loc_Exact
              ltac:(lia)) as (m2 & Hb & H53 & Hn & _ & ->).
  { rewrite fexp_eq. lia. }
  rewrite fexp_eq in *.
  set (d := Zdigits2 (Zpos (mx * my))) in *.
  replace (Z.max (d + (ex + ey) - 53) (-1074) - (ex + ey)) with (d - 53) in *
    by lia.
  assert (0 <= Zpos (mx * my) / 2 ^ (d - 53)) by (apply Z.div_pos; lia).
  destruct (pack_normal (xorb sx sy) m2 (ex + ey + (d - 53)))
    as (e & He' & Hnorm & _); [lia|lia|].
  exists e. split; [lia|done].
Qed.

Lemma mul_zero_l (s sy : bool) (y : float64) (e : Z) :
  normal sy y e -> F64.mul (S754_zero s) y = S754_zero (xorb s sy).
Proof. intros (m & -> & _). reflexivity. Qed.

(** A positive normal value below 2^62 converts to the integer it
    truncates to, which is also its floor. *)
Lemma to_int64_normal (x : float64) (e : Z) :
  normal false x e -> e <= 9 ->
  0 <= F64.to_int64 x < 2 ^ 62
  /\ F64.trunc x = Some (F64.to_int64 x)
  /\ F64.floor x = Some (F64.to_int64 x).
Proof.
  intros (m & -> & Hm & He) He9.
  assert (Hfl : F64.floor (S754_finite false m e)
                = F64.trunc (S754_finite false m e)).
  { unfold F64.floor, F64.trunc. f_equal. destruct e as [|k|k].
    - rewrite Z.shiftl_0_r. simpl. lia.
    - by rewrite Z.shiftl_mul_pow2.
    - by rewrite Z.shiftr_div_pow2. }
  rewrite Hfl. unfold F64.to_int64.
  rewrite trunc_scaled by slia. unfold sign_of. rewrite Z.mul_1_l.
  set (v := Zpos m * 2 ^ (e + scale) / 2 ^ scale).
  assert (Hs : 0 < 2 ^ scale) by (apply pow2_pos; slia).
  assert (Hv : 0 <= v < 2 ^ 62).
  { split; [apply Z.div_pos; [|lia]; pose proof (pow2_pos (e + scale)); slia|].
    apply Z.div_lt_upper_bound; [lia|].
    assert (2 ^ (e + scale) <= 2 ^ (9 + scale)) by (apply Z.pow_le_mono_r; slia).
    replace (2 ^ (9 + scale)) with (2 ^ 9 * 2 ^ scale) in *
      by (rewrite <- Z.pow_add_r by slia; done).
    change (2 ^ 62) with (2 ^ 53 * 2 ^ 9). nia. }
  unfold Int64.min_int, Int64.max_int.
  destruct (Z.leb_spec (- 2 ^ 63) v), (Z.leb_spec v (2 ^ 63 - 1)); simpl;
    try lia; done.
Qed.

Lemma wrap_id (z : Z) : - 2 ^ 63 <= z < 2 ^ 63 -> Int64.wrap z = z.
Proof.
  intros Hz. unfold Int64.wrap.
  rewrite Z.mod_small; [lia|]. change (2 ^ 64) with (2 ^ 63 + 2 ^ 63). lia.
Qed.

(** The bin of a timestamp is a valid index. *)
Lemma segment_index_range (maxts numSegments at_ : Z) :
  0 <= at_ <= maxts -> maxts < 2 ^ 63 - 1 -> 0 < numSegments < 2 ^ 44 ->
  0 <= segment_index maxts numSegments at_ < numSegments.
Proof.
  intros Hat Hmax Hn. unfold segment_index, Int64.add.
  rewrite wrap_id by lia.
  destruct (of_int_pos_normal (maxts + 1) ltac:(lia)) as (eb & Heb & Hb).
  destruct (of_int_pos_normal numSegments ltac:(lia)) as (ec & Hec & Hc).
  pose proof (Zdigits2_le numSegments 44 ltac:(lia) ltac:(lia)) as Hdn.
  pose proof (Zdigits2_pos numSegments ltac:(lia)) as Hdn'.
  pose proof (Zdigits2_le (maxts + 1) 63 ltac:(lia) ltac:(lia)) as Hdb.
  set (v := F64.to_int64 _).
  enough (0 <= v) by (destruct (Z.leb_spec numSegments v); lia).
  subst v.
  destruct (Z.eq_dec at_ 0) as [->|Hat0].
  - rewrite of_int_0, (div_zero_normal _ _ _ Hb), (mul_zero_l _ _ _ _ Hc).
    done.
  - destruct (of_int_pos_normal at_ ltac:(lia)) as (ea & Hea & Ha).
    pose proof (Zdigits2_mono at_ (maxts + 1) ltac:(lia)) as Hda.
    pose proof (Zdigits2_pos at_ ltac:(lia)) as Hda'.
    destruct (div_normal _ _ _ _ _ _ Ha Hb ltac:(lia)) as (eq & Heq & Hq).
    destruct (mul_normal _ _ _ _ _ _ Hq Hc ltac:(lia)) as (e & He & Hm).
    apply (to_int64_normal _ e Hm). lia.
Qed.

Lemma of_int_const_normal (z e : Z) :
  0 < z < 2 ^ 53 -> Zdigits2 z - 53 = e -> normal false (F64.of_int z) e.
Proof. intros Hz <-. by apply of_int_pos_exact. Qed.

Lemma normal_not_special (s : bool) (x : float64) (e : Z) :
  normal s x e ->
  F64.is_nan x = false /\ F64.eqb x F64.pinf = false
  /\ F64.eqb x F64.ninf = false /\ F64.eqb x F64.zero = false.
Proof. intros (m & -> & _). by destruct s. Qed.

Lemma max_normal_zero (x : float64) (e : Z) :
  normal false x e -> F64.max x (F64.of_int 0) = x.
Proof. intros (m & -> & _). reflexivity. Qed.

Lemma ltb_normal_exp (x y : float64) (ex ey : Z) :
  normal false x ex -> normal false y ey -> F64.ltb x y = true -> ex <= ey.
Proof.
  intros (mx & -> & _) (my & -> & _) Hlt.
  apply ltb_rank in Hlt; [|done..]. simpl in Hlt. lia.
Qed.

Lemma min_normal (x y : float64) (ex ey : Z) :
  normal false x ex -> normal false y ey ->
  exists e, e <= ey /\ (e = ex \/ e = ey) /\ normal false (F64.min x y) e.
Proof.
  intros Hx Hy.
  destruct (normal_not_special _ _ _ Hx) as (Nx & _ & Ix & Zx).
  destruct (normal_not_special _ _ _ Hy) as (Ny & _ & Iy & _).
  unfold F64.min. rewrite Nx, Ny, Ix, Iy, Zx. cbn [orb andb].
  destruct (F64.ltb x y) eqn:E.
  - exists ex. split; [by apply (ltb_normal_exp x y)|]. split; [by left|done].
  - exists ey. split; [lia|]. split; [by right|done].
Qed.

(** The slope is a positive normal number, of exponent at most that of 20. *)
Lemma slope_normal (t1 t2 : Z) :
  0 <= t2 <= t1 -> t1 < 2 ^ 63 ->
  exists e, -111 <= e <= -48 /\ normal false (slope_of t1 t2) e.
Proof.
  intros Ht Ht1. unfold slope_of, delta_t, Int64.sub.
  rewrite wrap_id by lia.
  assert (H20 : normal false (F64.of_int 20) (-48))
    by (by apply of_int_const_normal).
  destruct (Z.eq_dec (t1 - t2) 0) as [->|Hne].
  { exists (-48). split; [lia|]. exact H20. }
  assert (H2 : normal false (F64.of_int 2) (-51))
    by (by apply of_int_const_normal).
  assert (H1000 : normal false (F64.of_int 1000) (-43))
    by (by apply of_int_const_normal).
  assert (H1 : normal false (F64.of_int 1) (-52))
    by (by apply of_int_const_normal).
  destruct (of_int_pos_normal (t1 - t2) ltac:(lia)) as (ed & Hed & Hd).
  pose proof (Zdigits2_pos (t1 - t2) ltac:(lia)) as Hdp.
  pose proof (Zdigits2_le (t1 - t2) 63 ltac:(lia) ltac:(lia)) as Hdl.
  destruct (mul_normal _ _ _ _ _ _ H2 Hd ltac:(lia)) as (e1 & He1 & Hm).
  destruct (div_normal _ _ _ _ _ _ Hm H1000 ltac:(lia)) as (e2 & He2 & Hq).
  destruct (div_normal _ _ _ _ _ _ H1 Hq ltac:(lia)) as (e3 & He3 & Hr).
  cbn [xorb] in *.
  rewrite (max_normal_zero _ e3 Hr).
  destruct (min_normal _ _ _ _ Hr H20) as (e & He & Hee & Hs).
  exists e. split; [lia|done].
Qed.

Lemma abs_of_int (z : Z) : F64.abs (F64.of_int z) = F64.abs (F64.of_int (Z.abs z)).
Proof.
  destruct (Z.abs_spec z) as [[_ ->]|[_ ->]]; [done|].
  destruct (of_int_opp z) as [->| ->]; [|done]. by rewrite abs_opp.
Qed.

Lemma abs_normal (x : float64) (e : Z) : normal false x e -> F64.abs x = x.
Proof. by intros (m & -> & _). Qed.

(** The position difference is zero or a positive normal number. *)
Lemma delta_p_cases (p1 p2 : Z) :
  - 2 ^ 53 <= p1 <= 2 ^ 53 -> - 2 ^ 53 <= p2 <= 2 ^ 53 ->
  (p1 = p2 /\ delta_p p1 p2 = F64.zero)
  \/ (p1 <> p2 /\ exists e, -52 <= e <= 3 /\ normal false (delta_p p1 p2) e).
Proof.
  intros H1 H2. unfold delta_p, Int64.sub.
  change (2 ^ 53) with 9007199254740992 in *.
  rewrite wrap_id by (change (2 ^ 63) with 9223372036854775808; lia).
  destruct (Z.eq_dec p1 p2) as [->|Hne].
  - left. rewrite Z.sub_diag. done.
  - right. split; [done|]. rewrite abs_of_int.
    destruct (of_int_pos_normal (Z.abs (p1 - p2))) as (e & He & Hn).
    { split; [lia|]. apply Z.lt_trans with (2 ^ 55); [|done].
      change (2 ^ 55) with 36028797018963968. lia. }
    pose proof (Zdigits2_pos (Z.abs (p1 - p2)) ltac:(lia)).
    pose proof (Zdigits2_le (Z.abs (p1 - p2)) 55 ltac:(lia)
                  ltac:(change (2 ^ 55) with 36028797018963968; lia)).
    exists e. split; [lia|]. by rewrite (abs_normal _ e).
Qed.

(** The product converted to the intensity is non-negative and fits: the
    conversion is its floor. *)
Lemma intensity_floor (t1 t2 p1 p2 : Z) :
  0 <= t2 <= t1 -> t1 < 2 ^ 63 ->
  - 2 ^ 53 <= p1 <= 2 ^ 53 -> - 2 ^ 53 <= p2 <= 2 ^ 53 ->
  F64.floor (F64.mul (slope_of t1 t2) (delta_p p1 p2))
  = Some (intensity_of (slope_of t1 t2) p1 p2)
  /\ 0 <= intensity_of (slope_of t1 t2) p1 p2 < 2 ^ 62.
Proof.
  intros Ht Ht1 Hp1 Hp2. unfold intensity_of.
  destruct (slope_normal t1 t2 Ht Ht1) as (es & Hes & Hs).
  destruct (delta_p_cases p1 p2 Hp1 Hp2) as [[_ ->]|[_ (ep & Hep & Hp)]].
  - destruct Hs as (m & -> & _). done.
  - destruct (mul_normal _ _ _ _ _ _ Hs Hp ltac:(lia)) as (e & He & Hm).
    cbn [xorb] in Hm.
    destruct (to_int64_normal _ e Hm ltac:(lia)) as (Hr & _ & Hf).
    split; [done|lia].
Qed.

(** A value that is at least [v] units of [2^-scale]: positive infinity,
    or a valid finite number of that size. *)
Definition at_least (x : float64) (v : Z) : Prop :=
  x = F64.pinf
  \/ (F64.is_finite x = true /\ F64.valid x = true /\ v <= scaled x).

Lemma pack_at_least (m2 F v : Z) :
  0 < m2 <= 2 ^ 53 -> (2 ^ 52 <= m2 \/ F = -1074) -> -1074 <= F ->
  v <= m2 * 2 ^ (F + scale) ->
  at_least (pack false m2 F) v.
Proof.
  intros Hm Hn HF Hv.
  pose proof (pack_valid false m2 F ltac:(lia) Hn HF) as Hval.
  pose proof (pack_scaled false m2 F ltac:(lia) ltac:(slia)) as Hsc.
  destruct (pack_cases false m2 F ltac:(lia))
    as [[? _]|[_ [(_&_&p&_&Hpk)|[(_&_&Hpk)|[_ Hpk]]]]]; try lia.
  - right. rewrite Hpk in *. split; [done|]. split; [done|].
    rewrite Hsc by done. unfold sign_of. lia.
  - right. rewrite Hpk in *. split; [done|]. split; [done|].
    rewrite Hsc by done. unfold sign_of. lia.
  - left. done.
Qed.

Lemma at_least_normal (x : float64) (v : Z) :
  at_least x v -> 2 ^ (scale - 1021) <= v ->
  x = F64.pinf \/ exists e, normal false x e /\ v <= scaled x.
Proof.
  intros [->|(Hf & Hv & Hs)] Hlow; [by left|right].
  assert (Hp : 0 < 2 ^ (scale - 1021)) by (apply pow2_pos; slia).
  destruct x as [s|s| |s m e]; try discriminate; simpl in Hs; try lia.
  destruct (valid_finite_inv _ _ _ Hv) as (He & Hm & Hn).
  pose proof (pow2_pos (e + scale) ltac:(slia)) as Hpe.
  destruct s; [nia|].
  exists e. split; [|done]. exists m. split; [done|]. split; [|done].
  destruct Hn as [Hn| ->]; [lia|exfalso].
  replace (2 ^ (scale - 1021)) with (2 ^ 53 * 2 ^ (-1074 + scale)) in *
    by (rewrite <- Z.pow_add_r by slia; f_equal; lia).
  nia.
Qed.

(** Rounding does not fall below a normal number that the exact value
    reaches. *)
Lemma binary_round_ge (D : positive) (ez : Z) (mg : Z) (eg : Z) :
  -1074 <= ez -> 2 ^ 52 <= mg < 2 ^ 53 -> -1074 <= eg ->
  mg * 2 ^ (eg + scale) <= Zpos D * 2 ^ (ez + scale) ->
  at_least (binary_round F64.prec F64.emax false D ez) (mg * 2 ^ (eg + scale)).
Proof.
  intros Hez Hmg Heg Hle.
  destruct (binary_round_spec false D ez) as (m2 & Hex & Hin & Hm2 & Hn & ->).
  set (F := fexp F64.prec F64.emax (Zdigits2 (Zpos D) + ez)) in *.
  assert (HF : -1074 <= F) by (unfold F; rewrite fexp_eq; lia).
  assert (Hpz : 0 < 2 ^ (ez + scale)) by (apply pow2_pos; slia).
  assert (Hpg : 0 < 2 ^ (eg + scale)) by (apply pow2_pos; slia).
  assert (HpF : 0 < 2 ^ (F + scale)) by (apply pow2_pos; slia).
  destruct (Z.le_gt_cases F ez) as [Hc|Hc].
  - specialize (Hex Hc). pose proof (pow2_pos (ez - F) ltac:(lia)) as Hp.
    assert (E : m2 * 2 ^ (F + scale) = Zpos D * 2 ^ (ez + scale)).
    { rewrite Hex, <- Z.mul_assoc, <- Z.pow_add_r by slia. do 2 f_equal. lia. }
    assert (0 < m2) by (rewrite Hex; apply Z.mul_pos_pos; lia).
    apply pack_at_least; try done; lia.
  - specialize (Hin Hc). pose proof (pow2_pos (F - ez) ltac:(lia)) as Hpk.
    assert (Hm2pos : 0 < m2) by (destruct Hn; lia).
    apply pack_at_least; try done; [lia|].
    destruct (Z.le_gt_cases F eg) as [Hg|Hg].
    + pose proof (pow2_pos (eg - F) ltac:(lia)) as HpG.
      set (G := mg * 2 ^ (eg - F)).
      assert (E1 : mg * 2 ^ (eg + scale) = G * 2 ^ (F - ez) * 2 ^ (ez + scale)).
      { unfold G. rewrite <- !Z.mul_assoc, <- !Z.pow_add_r by slia.
        do 2 f_equal. lia. }
      assert (E2 : mg * 2 ^ (eg + scale) = G * 2 ^ (F + scale)).
      { unfold G. rewrite <- !Z.mul_assoc, <- !Z.pow_add_r by slia.
        do 2 f_equal. lia. }
      assert (HGD : G * 2 ^ (F - ez) <= Zpos D).
      { apply (Z.mul_le_mono_pos_r _ _ (2 ^ (ez + scale))); [done|].
        by rewrite <- E1. }
      assert (G <= Zpos D / 2 ^ (F - ez))
        by (apply Z.div_le_lower_bound; lia).
      rewrite E2. apply Z.mul_le_mono_nonneg_r; lia.
    + destruct Hn as [Hn|?]; [|lia].
      assert (E : 2 ^ (F + scale) = 2 ^ (F - eg) * 2 ^ (eg + scale)).
      { rewrite <- Z.pow_add_r by slia. f_equal. lia. }
      assert (H2 : 2 ^ 1 <= 2 ^ (F - eg)) by (apply Z.pow_le_mono_r; lia).
      rewrite E, Z.mul_assoc. apply Z.mul_le_mono_nonneg_r; [lia|].
      apply Z.le_trans with (2 ^ 52 * 2 ^ 1); [simpl in *; lia|].
      apply Z.mul_le_mono_nonneg; simpl in *; lia.
Qed.

(** The difference of two positive finite numbers, the first the larger:
    the exact difference, rounded. *)
Lemma sub_pos_spec (mx my : positive) (ex ey : Z) :
  - scale <= ex -> - scale <= ey ->
  Zpos my * 2 ^ (ey + scale) < Zpos mx * 2 ^ (ex + scale) ->
  exists D,
    Zpos D * 2 ^ (Z.min ex ey + scale)
    = Zpos mx * 2 ^ (ex + scale) - Zpos my * 2 ^ (ey + scale)
    /\ F64.sub (S754_finite false mx ex) (S754_finite false my ey)
       = binary_round F64.prec F64.emax false D (Z.min ex ey).
Proof.
  intros Hex Hey Hlt. unfold F64.sub, SFsub. cbn [cond_Zopp].
  set (ez := Z.min ex ey).
  destruct (shl_align_spec mx ex ez) as [_ Hx].
  destruct (shl_align_spec my ey ez) as [_ Hy].
  rewrite Hx, Hy.
  replace (Z.min ex ez) with ez by lia. replace (Z.min ey ez) with ez by lia.
  pose proof (pow2_pos (ez + scale) ltac:(slia)) as Hpz.
  assert (Ex : Zpos mx * 2 ^ (ex - ez) * 2 ^ (ez + scale)
               = Zpos mx * 2 ^ (ex + scale)).
  { rewrite <- Z.mul_assoc, <- Z.pow_add_r by slia. do 2 f_equal. lia. }
  assert (Ey : Zpos my * 2 ^ (ey - ez) * 2 ^ (ez + scale)
               = Zpos my * 2 ^ (ey + scale)).
  { rewrite <- Z.mul_assoc, <- Z.pow_add_r by slia. do 2 f_equal. lia. }
  set (d := Zpos mx * 2 ^ (ex - ez) - Zpos my * 2 ^ (ey - ez)).
  assert (Hd : 0 < d) by (unfold d; nia).
  destruct d as [|D|D] eqn:Ed; try lia.
  exists D. split; [|reflexivity].
  rewrite <- Ex, <- Ey. unfold d in Ed. nia.
Qed.

(** A quotient of normal numbers, the dividend the larger, is at least one. *)
Lemma div_ge_one (x y : float64) (ex ey : Z) :
  normal false x ex -> normal false y ey ->
  scaled y <= scaled x ->
  at_least (F64.div x y) (2 ^ scale).
Proof.
  intros (mx & -> & Hmx & Hex) (my & -> & Hmy & Hey) Hle.
  simpl in Hle. rewrite !Z.mul_1_l in Hle.
  pose proof (pow2_pos (ex + scale) ltac:(slia)) as Hpx.
  pose proof (pow2_pos (ey + scale) ltac:(slia)) as Hpy.
  assert (Hexy : ey <= ex).
  { destruct (Z.le_gt_cases ey ex); [done|exfalso].
    assert (E : 2 ^ (ey + scale) = 2 ^ (ey - ex) * 2 ^ (ex + scale)).
    { rewrite <- Z.pow_add_r by slia. f_equal. lia. }
    assert (H2 : 2 ^ 1 <= 2 ^ (ey - ex)) by (apply Z.pow_le_mono_r; lia).
    rewrite E, Z.mul_assoc in Hle.
    apply Z.mul_le_mono_pos_r in Hle; [|done].
    assert (2 ^ 52 * 2 ^ 1 <= Zpos my * 2 ^ (ey - ex))
      by (apply Z.mul_le_mono_nonneg; simpl in *; lia).
    simpl in *. lia. }
  assert (Hmxy : Zpos my <= Zpos mx * 2 ^ (ex - ey)).
  { assert (E1 : 2 ^ (ex + scale) = 2 ^ (ex - ey) * 2 ^ (ey + scale)).
    { rewrite <- Z.pow_add_r by slia. f_equal. lia. }
    rewrite E1, Z.mul_assoc in Hle.
    by apply Z.mul_le_mono_pos_r in Hle. }
  destruct (div_spec false false mx my ex ey Hmx Hmy ltac:(lia))
    as (n & m2 & Hn & Hm2 & _ & HG & _ & ->).
  cbn [xorb].
  set (E := ex - ey - 53 + n).
  apply pack_at_least; [lia|lia|lia|].
  assert (Hs : 0 < 2 ^ scale) by (apply pow2_pos; slia).
  destruct (Z.le_gt_cases 0 E) as [HE|HE].
  - replace (2 ^ (E + scale)) with (2 ^ E * 2 ^ scale)
      by (rewrite <- Z.pow_add_r by slia; done).
    pose proof (pow2_pos E HE).
    rewrite Z.mul_assoc. rewrite <- (Z.mul_1_l (2 ^ scale)) at 1.
    apply Z.mul_le_mono_nonneg_r; [lia|].
    assert (1 * 1 <= m2 * 2 ^ E) by (apply Z.mul_le_mono_nonneg; lia). lia.
  - assert (HGm : 2 ^ (- E) <= m2).
    { apply HG.
      replace (2 ^ (- E) * (2 ^ n * Zpos my))
        with (Zpos my * 2 ^ (53 - (ex - ey))).
      2:{ rewrite (Z.mul_comm (2 ^ n)), Z.mul_assoc, (Z.mul_comm _ (Zpos my)),
            <- Z.mul_assoc, <- Z.pow_add_r by lia.
          do 2 f_equal. lia. }
      assert (E2 : 2 ^ 53 = 2 ^ (ex - ey) * 2 ^ (53 - (ex - ey))).
      { rewrite <- Z.pow_add_r by lia. f_equal. lia. }
      pose proof (pow2_pos (53 - (ex - ey)) ltac:(lia)).
      rewrite E2, Z.mul_assoc. apply Z.mul_le_mono_nonneg_r; lia. }
    replace (2 ^ scale) with (2 ^ (- E) * 2 ^ (E + scale))
      by (rewrite <- Z.pow_add_r by slia; f_equal; lia).
    pose proof (pow2_pos (E + scale) ltac:(slia)).
    apply Z.mul_le_mono_nonneg_r; lia.
Qed.

Lemma min_at_least_one (r : float64) :
  at_least r (2 ^ scale) -> F64.min r (F64.of_int 1) = F64.of_int 1.
Proof.
  intros [->|(Hf & Hv & Hs)]; [reflexivity|].
  assert (Hp : 0 < 2 ^ scale) by (apply pow2_pos; slia).
  assert (Hlt : F64.ltb r (F64.of_int 1) = false).
  { rewrite ltb_scaled by done. apply Z.ltb_ge.
    change (scaled (F64.of_int 1)) with (1 * (2 ^ 52 * 2 ^ (-52 + scale))).
    rewrite Z.mul_1_l, <- Z.pow_add_r by slia.
    replace (52 + (-52 + scale)) with scale by lia. done. }
  destruct r as [s|s| |s m e]; try discriminate; simpl in Hs; try lia.
  unfold F64.min. rewrite Hlt. by destruct s.
Qed.

(** An integer constant [z = m / 2^k] in units of [2^-scale]. *)
Lemma const_scaled (z m k : Z) :
  0 <= k <= scale -> m = z * 2 ^ k -> m * 2 ^ (- k + scale) = z * 2 ^ scale.
Proof.
  intros Hk ->. rewrite <- Z.mul_assoc, <- Z.pow_add_r by lia.
  do 2 f_equal. lia.
Qed.

(** From 540 on, the fraction of the last branch of [getSegmentColor] is
    clamped to one. *)
Lemma normal_const (m : positive) (e : Z) :
  (4503599627370496 <=? Zpos m) && (Zpos m <? 9007199254740992)
  && (-1074 <=? e) && (e <=? 971) = true ->
  normal false (S754_finite false m e) e.
Proof.
  rewrite !andb_true_iff, !Z.leb_le, !Z.ltb_lt. intros [[[? ?] ?] ?].
  exists m. split; [done|].
  change (2 ^ 52) with 4503599627370496.
  change (2 ^ 53) with 9007199254740992. lia.
Qed.

Lemma saturated_fraction (x : float64) :
  F64.valid x = true -> F64.leb (F64.of_int 540) x = true ->
  F64.min (F64.div (F64.sub x (steps 4)) (F64.mul (F64.of_int 5) stepSize))
    (F64.of_int 1) = F64.of_int 1.
Proof.
  intros Hv Hle.
  assert (E240 : steps 4 = S754_finite false 8444249301319680 (-45))
    by reflexivity.
  assert (E300 : F64.mul (F64.of_int 5) stepSize
                 = S754_finite false 5277655813324800 (-44)) by reflexivity.
  assert (E540 : F64.of_int 540 = S754_finite false 4749890231992320 (-43))
    by reflexivity.
  rewrite E240, E300. rewrite E540 in Hle.
  assert (N300 : normal false (S754_finite false 5277655813324800 (-44)) (-44))
    by (by apply normal_const).
  assert (N540 : normal false (S754_finite false 4749890231992320 (-43)) (-43))
    by (by apply normal_const).
  assert (Hs : 0 < 2 ^ scale) by (apply pow2_pos; slia).
  assert (S240 : 8444249301319680 * 2 ^ (-45 + scale) = 240 * 2 ^ scale)
    by (apply (const_scaled 240 _ 45); [slia|reflexivity]).
  assert (S300 : 5277655813324800 * 2 ^ (-44 + scale) = 300 * 2 ^ scale)
    by (apply (const_scaled 300 _ 44); [slia|reflexivity]).
  assert (S540 : 4749890231992320 * 2 ^ (-43 + scale) = 540 * 2 ^ scale)
    by (apply (const_scaled 540 _ 43); [slia|reflexivity]).
  destruct x as [s|s| |s m e].
  - discriminate Hle.
  - destruct s; [discriminate Hle|reflexivity].
  - discriminate Hle.
  - destruct s; [discriminate Hle|].
    rewrite leb_scaled in Hle
      by eauto using normal_valid, normal_finite.
    apply Z.leb_le in Hle.
    cbn [scaled] in Hle. rewrite !Z.mul_1_l, S540 in Hle.
    destruct (valid_finite_inv _ _ _ Hv) as (He & _).
    destruct (sub_pos_spec m 8444249301319680 e (-45)) as (D & HD & ->);
      [slia|slia|rewrite S240; lia|].
    rewrite S240 in HD.
    assert (Hge : at_least (binary_round F64.prec F64.emax false D (Z.min e (-45)))
                    (5277655813324800 * 2 ^ (-44 + scale))).
    { apply binary_round_ge; [lia| |lia|rewrite S300; lia].
      change (2 ^ 52) with 4503599627370496.
      change (2 ^ 53) with 9007199254740992. lia. }
    rewrite S300 in Hge.
    destruct (at_least_normal _ _ Hge) as [->|(ey & Hy & Hsy)].
    + assert (Hpl : 2 ^ (scale - 1021) <= 2 ^ scale)
        by (apply Z.pow_le_mono_r; slia). lia.
    + reflexivity.
    + apply min_at_least_one. apply (div_ge_one _ _ ey (-44)); [done|done|].
      cbn [scaled]. rewrite Z.mul_1_l, S300. done.
Qed.

(** ** Binning and backfill *)

(** The segment the backfill loop tracks when it reaches bin [i]: the last
    bin before [i] that the binning filled, and the initial one when there
    is none. *)
Definition tracked (segments : list Segment) (lastSegment : Segment) (i : nat)
  : Segment :=
  foldl (fun last sg => if count sg =? 0 then last else sg) lastSegment
    (take i segments).

(** What the backfill loop leaves in a bin, [last] being tracked. *)
Definition backfilled (last sg : Segment) : Segment :=
  if count sg =? 0 then
    mkSegment (count last) (intensity last) (yRange last) (seg_at sg)
  else sg.

(** The segments after the first [k] rounds of the backfill loop. *)
Definition filled_upto (segments : list Segment) (lastSegment : Segment)
    (k : nat) : list Segment :=
  imap (fun j sg => if decide (j < k)%nat
                    then backfilled (tracked segments lastSegment j) sg
                    else sg) segments.

Definition at_in_range (sg : Segment) : Prop := 0 <= seg_at sg < 2 ^ 63.

Lemma tracked_S segments lastSegment k sg :
  segments !! k = Some sg ->
  tracked segments lastSegment (S k)
  = if count sg =? 0 then tracked segments lastSegment k else sg.
Proof.
  intros Hk. unfold tracked. rewrite (take_S_r _ _ _ Hk), foldl_app. done.
Qed.

Lemma tracked_in_range segments lastSegment k :
  Forall at_in_range segments -> at_in_range lastSegment ->
  at_in_range (tracked segments lastSegment k).
Proof.
  intros Hs Hl. unfold tracked.
  assert (Ht : Forall at_in_range (take k segments)) by (by apply Forall_take).
  revert lastSegment Hl. induction Ht as [|sg l Hsg _ IH]; intros last Hl; simpl.
  - done.
  - apply IH. by destruct (count sg =? 0).
Qed.

Lemma gap_condition (numSegments : Z) (i : nat) (last : Segment) :
  0 < numSegments < 2 ^ 50 -> Z.of_nat i < numSegments -> at_in_range last ->
  segmentTS numSegments i = 0
  /\ (Int64.sub (segmentTS numSegments i) (seg_at last) <? backfillThreshold)
     = true.
Proof.
  intros Hn Hi [Hl Hu]. rewrite segmentTS_zero by done. split; [done|].
  unfold Int64.sub, backfillThreshold. rewrite wrap_id by lia.
  apply Z.ltb_lt. lia.
Qed.

Lemma backfill_step_spec (numSegments : Z) segments lastSegment (k : nat) :
  0 < numSegments < 2 ^ 50 -> (Z.of_nat (length segments) <= numSegments) ->
  Forall at_in_range segments -> at_in_range lastSegment ->
  (k < length segments)%nat ->
  backfill_step numSegments
    (filled_upto segments lastSegment k, tracked segments lastSegment k) k
  = (filled_upto segments lastSegment (S k),
     tracked segments lastSegment (S k)).
Proof.
  intros Hn Hlen Hs Hl Hk.
  destruct (lookup_lt_is_Some_2 segments k Hk) as [sg Hsg].
  unfold backfill_step.
  assert (Hfk : filled_upto segments lastSegment k !! k = Some sg).
  { unfold filled_upto. rewrite list_lookup_imap, Hsg. simpl.
    destruct (decide (k < k)%nat); [lia|done]. }
  rewrite Hfk, (tracked_S _ _ _ _ Hsg).
  assert (Hnext : forall j, j <> k ->
            filled_upto segments lastSegment (S k) !! j
            = filled_upto segments lastSegment k !! j).
  { intros j Hj. unfold filled_upto. rewrite !list_lookup_imap.
    destruct (segments !! j); [simpl|done].
    destruct (decide (j < S k)%nat), (decide (j < k)%nat); try done; lia. }
  destruct (Z.eqb_spec (count sg) 0) as [Hc|Hc].
  - destruct (gap_condition numSegments k (tracked segments lastSegment k))
      as [_ ->]; [done|lia|by apply tracked_in_range|].
    f_equal. apply list_eq. intros j.
    destruct (decide (j = k)) as [->|Hj].
    + rewrite list_lookup_insert_eq
        by (unfold filled_upto; rewrite length_imap; done).
      unfold filled_upto. rewrite list_lookup_imap, Hsg. simpl.
      destruct (decide (k < S k)%nat); [|lia].
      unfold backfilled. by rewrite (proj2 (Z.eqb_eq _ _) Hc).
    + rewrite list_lookup_insert_ne by done. by rewrite Hnext.
  - f_equal. apply list_eq. intros j.
    destruct (decide (j = k)) as [->|Hj]; [|by rewrite Hnext].
    rewrite Hfk. unfold filled_upto. rewrite list_lookup_imap, Hsg. simpl.
    destruct (decide (k < S k)%nat); [|lia].
    unfold backfilled. by rewrite (proj2 (Z.eqb_neq _ _) Hc).
Qed.

Lemma backfill_loop_spec (numSegments : Z) segments lastSegment (m k : nat) :
  0 < numSegments < 2 ^ 50 -> (Z.of_nat (length segments) <= numSegments) ->
  Forall at_in_range segments -> at_in_range lastSegment ->
  (k + m <= length segments)%nat ->
  foldl (backfill_step numSegments)
    (filled_upto segments lastSegment k, tracked segments lastSegment k)
    (seq k m)
  = (filled_upto segments lastSegment (k + m),
     tracked segments lastSegment (k + m)).
Proof.
  intros Hn Hlen Hs Hl. revert k.
  induction m as [|m IH]; intros k Hkm; cbn [seq foldl].
  - by rewrite Nat.add_0_r.
  - rewrite backfill_step_spec by (done || lia).
    rewrite IH by lia. by rewrite Nat.add_succ_comm.
Qed.

Lemma filled_upto_0 segments lastSegment :
  filled_upto segments lastSegment 0 = segments.
Proof.
  apply list_eq. intros j. unfold filled_upto. rewrite list_lookup_imap.
  destruct (segments !! j); [simpl|done]. by destruct (decide (j < 0)%nat); [lia|].
Qed.

(** The backfill pass, bin by bin. *)
Lemma backfill_spec (numSegments : Z) segments lastSegment :
  0 < numSegments < 2 ^ 50 -> Z.of_nat (length segments) = numSegments ->
  Forall at_in_range segments -> at_in_range lastSegment ->
  backfill numSegments segments lastSegment
  = (imap (fun j sg => backfilled (tracked segments lastSegment j) sg) segments,
     tracked segments lastSegment (length segments)).
Proof.
  intros Hn Hlen Hs Hl. unfold backfill.
  replace (Z.to_nat numSegments) with (length segments) by lia.
  pose proof (backfill_loop_spec numSegments segments lastSegment
                (length segments) 0 Hn ltac:(lia) Hs Hl ltac:(lia)) as H.
  rewrite filled_upto_0 in H. unfold tracked at 1 in H. rewrite take_0 in H.
  simpl in H. rewrite H. f_equal.
  apply list_eq. intros j. unfold filled_upto. rewrite !list_lookup_imap.
  destruct (segments !! j) eqn:E; [simpl|done].
  apply lookup_lt_Some in E. by destruct (decide (j < length segments)%nat).
Qed.

Definition at_valid (a : Action) : Prop := 0 <= At a < 2 ^ 63.

Lemma bin_step_inv (maxts numSegments : Z) segments posList a st' :
  bin_step maxts numSegments (Some (segments, posList)) a = Some st' ->
  length (fst st') = length segments
  /\ (Forall at_in_range segments -> at_valid a ->
      Forall at_in_range (fst st')).
Proof.
  unfold bin_step.
  destruct (segment_index maxts numSegments (At a) <? 0); [done|].
  destruct (segments !! Z.to_nat _) as [sg|] eqn:Hsg; [|done].
  intros [= <-]. cbn [fst]. split.
  - by rewrite length_insert.
  - intros Hs Ha. apply Forall_insert; done.
Qed.

Lemma bin_loop_None (maxts numSegments : Z) actions :
  foldl (bin_step maxts numSegments) None actions = None.
Proof. by induction actions. Qed.

Lemma bin_loop_inv (maxts numSegments : Z) actions segments posList st' :
  foldl (bin_step maxts numSegments) (Some (segments, posList)) actions
  = Some st' ->
  length (fst st') = length segments
  /\ (Forall at_in_range segments -> Forall at_valid actions ->
      Forall at_in_range (fst st')).
Proof.
  revert segments posList.
  induction actions as [|a actions IH]; intros segments posList; cbn [foldl].
  - intros [= <-]. done.
  - destruct (bin_step maxts numSegments (Some (segments, posList)) a)
      as [[segments1 posList1]|] eqn:Hstep.
    + intros Hfold. destruct (bin_step_inv _ _ _ _ _ _ Hstep) as [Hlen Hin].
      destruct (IH _ _ Hfold) as [Hlen' Hin']. cbn [fst] in *. split.
      * congruence.
      * intros Hs Ha. apply Forall_cons in Ha as [Ha Has]. auto.
    + by rewrite bin_loop_None.
Qed.

Lemma makeslice_ok_bound (numSegments : Z) :
  makeslice_ok stopSize numSegments = true ->
  0 <= numSegments < 2 ^ 44.
Proof.
  unfold makeslice_ok, stopSize, maxAlloc.
  intros [H1 H2]%andb_true_iff. apply Z.leb_le in H1, H2. lia.
Qed.

Lemma binSegments_inv funscript (numSegments : Z) binned :
  binSegments funscript numSegments = Some binned ->
  0 <= numSegments < 2 ^ 44
  /\ Z.of_nat (length binned) = numSegments
  /\ (Forall at_valid (Actions funscript) -> Forall at_in_range binned).
Proof.
  unfold binSegments.
  destruct (makeslice_ok segmentSize numSegments) eqn:H1; [|done].
  destruct (makeslice_ok stopSize numSegments) eqn:H2; [|done].
  cbn [andb negb].
  destruct (last (Actions funscript)) as [lastAction|]; [|done].
  destruct (foldl _ _ _) as [st'|] eqn:Hfold; [|done].
  intros [= <-]. destruct (bin_loop_inv _ _ _ _ _ _ Hfold) as [Hlen Hin].
  pose proof (makeslice_ok_bound _ H2) as Hn.
  split; [done|]. split.
  - rewrite Hlen, length_replicate. lia.
  - intros Ha. apply Hin; [|done].
    apply Forall_replicate. unfold at_in_range, zeroSegment. cbn. lia.
Qed.

(** C1. In the backfill pass of [getGradientTable], run on the bins the
    first loop leaves for actions with non-negative timestamps: the
    timestamp [segmentTS] of every bin is 0 and the tracked [lastSegment]
    has a non-negative [at], so the gap test
    [segmentTS - lastSegment.at < backfillThreshold] succeeds at every bin;
    every empty bin therefore takes the count, the intensity sum and the
    yRange of the tracked segment (keeping its own [at]), every other bin
    is left as it is; the tracked segment starts as [segments[0]] and
    becomes the bin itself at every non-empty bin, in order. *)
Theorem backfill_always_triggers funscript (numSegments : Z) binned lastSegment :
  Forall at_valid (Actions funscript) ->
  binSegments funscript numSegments = Some binned ->
  binned !! 0%nat = Some lastSegment ->
  backfill numSegments binned lastSegment
  = (imap (fun i sg => backfilled (tracked binned lastSegment i) sg) binned,
     tracked binned lastSegment (length binned))
  /\ tracked binned lastSegment 0 = lastSegment
  /\ forall (i : nat) sg, binned !! i = Some sg ->
       let last := tracked binned lastSegment i in
       segmentTS numSegments i = 0
       /\ 0 <= seg_at last
       /\ (Int64.sub (segmentTS numSegments i) (seg_at last)
             <? backfillThreshold) = true
       /\ tracked binned lastSegment (S i)
          = (if count sg =? 0 then last else sg)
       /\ exists filled,
            fst (backfill numSegments binned lastSegment) !! i = Some filled
            /\ seg_at filled = seg_at sg
            /\ (count sg = 0 ->
                count filled = count last
                /\ intensity filled = intensity last
                /\ yRange filled = yRange last)
            /\ (count sg <> 0 -> filled = sg).
Proof.
  intros Ha Hbin H0.
  destruct (binSegments_inv _ _ _ Hbin) as (Hn & Hlen & Hin).
  specialize (Hin Ha).
  assert (Hl : at_in_range lastSegment).
  { eapply Forall_lookup_1 in Hin; eauto. }
  pose proof (lookup_lt_Some _ _ _ H0) as Hpos.
  assert (Hn' : 0 < numSegments < 2 ^ 50) by lia.
  pose proof (backfill_spec numSegments binned lastSegment Hn' Hlen Hin Hl)
    as Hback.
  split; [exact Hback|]. split; [done|].
  intros i sg Hsg last.
  pose proof (lookup_lt_Some _ _ _ Hsg) as Hi.
  assert (Hlast : at_in_range last) by (by apply tracked_in_range).
  destruct (gap_condition numSegments i last Hn' ltac:(lia) Hlast)
    as [Hts Hgap].
  split; [done|]. split; [apply Hlast|]. split; [done|].
  split; [by apply tracked_S|].
  exists (backfilled last sg). rewrite Hback. cbn [fst].
  rewrite list_lookup_imap, Hsg. split; [done|].
  unfold backfilled.
  destruct (Z.eqb_spec (count sg) 0) as [Hc|Hc]; cbn [seg_at count intensity yRange].
  - split; [done|]. split; [done|]. intros; done.
  - split; [done|]. split; [intros; done|done].
Qed.

Definition backfill_example : Script :=
  UpdateIntensityAndSpeed
    (mkScript EmptyString false 0
       [rawAction 0 10; rawAction 1000 90; rawAction 4000 20] 0).

Lemma backfill_always_triggers_witness :
  fmap (M:=list) intensity <$> getSegments backfill_example 8
  = Some [0; 40; 40; 40; 40; 40; 40; 11]
  /\ exists binned lastSegment,
       binSegments backfill_example 8 = Some binned
       /\ intensity <$> binned = [0; 40; 0; 0; 0; 0; 0; 11]
       /\ tracked binned lastSegment 0 = lastSegment.
Proof.
  split; [vm_compute; reflexivity|].
  eexists _, _.
  split; [vm_compute; reflexivity|]. split; [vm_compute; reflexivity|].
  refine (proj1 (proj2 (backfill_always_triggers backfill_example 8 _ _ _ _ _))).
  - unfold at_valid. repeat constructor; vm_compute; congruence.
  - vm_compute; reflexivity.
  - reflexivity.
Defined.

(** ** The gradient table *)

Lemma backfill_step_length (numSegments : Z) st (i : nat) :
  length (fst (backfill_step numSegments st i)) = length (fst st).
Proof.
  destruct st as [segments lastSegment]. unfold backfill_step.
  destruct (segments !! i) as [sg|]; [|done].
  destruct (count sg =? 0); [|done].
  destruct (_ <? _); [|done]. cbn [fst]. by rewrite length_insert.
Qed.

Lemma backfill_length (numSegments : Z) segments lastSegment :
  length (fst (backfill numSegments segments lastSegment)) = length segments.
Proof.
  unfold backfill. generalize (seq 0 (Z.to_nat numSegments)) as todo.
  change segments with (fst (segments, lastSegment)) at 2.
  generalize (segments, lastSegment) as st.
  intros st todo. revert st. induction todo as [|i todo IH]; intros st.
  - done.
  - cbn [foldl]. by rewrite IH, backfill_step_length.
Qed.

Definition at_within (maxts : Z) (a : Action) : Prop := 0 <= At a <= maxts.

Lemma bin_step_total (maxts numSegments : Z) segments posList a :
  Z.of_nat (length segments) = numSegments -> 0 < numSegments < 2 ^ 44 ->
  maxts < 2 ^ 63 - 1 -> at_within maxts a ->
  is_Some (bin_step maxts numSegments (Some (segments, posList)) a).
Proof.
  intros Hlen Hn Hmax Ha. unfold bin_step.
  pose proof (segment_index_range maxts numSegments (At a) Ha Hmax Hn) as Hi.
  destruct (Z.ltb_spec (segment_index maxts numSegments (At a)) 0); [lia|].
  destruct (lookup_lt_is_Some_2 segments
              (Z.to_nat (segment_index maxts numSegments (At a))))
    as [sg ->]; [lia|]. done.
Qed.

Lemma bin_loop_total (maxts numSegments : Z) actions segments posList :
  Z.of_nat (length segments) = numSegments -> 0 < numSegments < 2 ^ 44 ->
  maxts < 2 ^ 63 - 1 -> Forall (at_within maxts) actions ->
  is_Some (foldl (bin_step maxts numSegments) (Some (segments, posList))
             actions).
Proof.
  intros Hlen Hn Hmax Ha. revert segments posList Hlen.
  induction Ha as [|a actions Ha _ IH]; intros segments posList Hlen.
  - done.
  - cbn [foldl].
    destruct (bin_step_total maxts numSegments segments posList a)
      as [[segments1 posList1] Hstep]; try done.
    rewrite Hstep. apply IH.
    destruct (bin_step_inv _ _ _ _ _ _ Hstep) as [Hlen1 _].
    cbn [fst] in Hlen1. lia.
Qed.

Lemma binSegments_total funscript (numSegments : Z) lastAction :
  0 < numSegments -> makeslice_ok stopSize numSegments = true ->
  last (Actions funscript) = Some lastAction ->
  Forall (at_within (At lastAction)) (Actions funscript) ->
  At lastAction < 2 ^ 63 - 1 ->
  is_Some (binSegments funscript numSegments).
Proof.
  intros Hpos Hok Hlast Ha Hmax. unfold binSegments.
  pose proof (makeslice_ok_bound _ Hok) as Hn.
  assert (Hok' : makeslice_ok segmentSize numSegments = true).
  { unfold makeslice_ok, stopSize, segmentSize, maxAlloc in *.
    apply andb_true_iff in Hok as [H1 H2]. apply Z.leb_le in H1, H2.
    apply andb_true_iff. split; apply Z.leb_le; lia. }
  rewrite Hok, Hok', Hlast. cbn [andb negb].
  destruct (bin_loop_total (At lastAction) numSegments (Actions funscript)
              (replicate (Z.to_nat numSegments) zeroSegment) [])
    as [st Hst]; try done; try lia.
  - rewrite length_replicate. lia.
  - rewrite Hst. done.
Qed.

Lemma getSegments_inv funscript (numSegments : Z) segments :
  getSegments funscript numSegments = Some segments ->
  0 < numSegments < 2 ^ 44 /\ Z.of_nat (length segments) = numSegments.
Proof.
  unfold getSegments.
  destruct (binSegments funscript numSegments) as [binned|] eqn:Hbin; [|done].
  destruct (binned !! 0%nat) as [lastSegment|] eqn:H0; [|done].
  intros [= <-]. rewrite backfill_length.
  destruct (binSegments_inv _ _ _ Hbin) as (Hn & Hlen & _).
  apply lookup_lt_Some in H0. lia.
Qed.

Lemma getSegments_total funscript (numSegments : Z) lastAction :
  0 < numSegments -> makeslice_ok stopSize numSegments = true ->
  last (Actions funscript) = Some lastAction ->
  Forall (at_within (At lastAction)) (Actions funscript) ->
  At lastAction < 2 ^ 63 - 1 ->
  is_Some (getSegments funscript numSegments).
Proof.
  intros Hpos Hok Hlast Ha Hmax. unfold getSegments.
  destruct (binSegments_total funscript numSegments lastAction)
    as [binned Hbin]; try done.
  rewrite Hbin. destruct (binSegments_inv _ _ _ Hbin) as (_ & Hlen & _).
  destruct (lookup_lt_is_Some_2 binned 0) as [lastSegment ->]; [lia|]. done.
Qed.

Section GradientFacts.
Context `{Colorful}.

(** C7. Whenever [getGradientTable] returns, for [numSegments >= 2]: the
    table has exactly [numSegments] stops; stop [i] has the position
    [float64(i)/float64(numSegments-1)], the yRange of segment [i] as it
    is, and the colour [getSegmentColor(intensity/count)] when the
    segment's count is positive and [getSegmentColor(0.0)] otherwise; the
    first position is 0, the last is 1 and the positions increase
    strictly.  It does return for a non-empty sequence of actions whose
    timestamps lie between 0 and the last action's, when the two slices
    can be allocated. *)
Theorem getGradientTable_stops funscript (numSegments : Z) :
  2 <= numSegments ->
  (forall gt, getGradientTable funscript numSegments = Some gt ->
     exists segments,
       getSegments funscript numSegments = Some segments
       /\ Z.of_nat (length gt) = numSegments
       /\ length segments = length gt
       /\ (forall (i : nat) sg, segments !! i = Some sg ->
             exists stop,
               gt !! i = Some stop
               /\ StopPos stop
                  = F64.div (F64.of_int (Z.of_nat i))
                      (F64.of_int (numSegments - 1))
               /\ YRange stop = yRange sg
               /\ Col stop
                  = if 0 <? count sg then
                      getSegmentColor
                        (F64.div (F64.of_int (intensity sg))
                           (F64.of_int (count sg)))
                    else getSegmentColor (F64.of_int 0))
       /\ StopPos <$> gt !! 0%nat = Some F64.zero
       /\ StopPos <$> last gt = Some (F64.of_int 1)
       /\ (forall (i j : nat) c1 c2,
             (i < j)%nat -> gt !! i = Some c1 -> gt !! j = Some c2 ->
             F64.ltb (StopPos c1) (StopPos c2) = true))
  /\ (forall lastAction,
        makeslice_ok stopSize numSegments = true ->
        last (Actions funscript) = Some lastAction ->
        Forall (at_within (At lastAction)) (Actions funscript) ->
        At lastAction < 2 ^ 63 - 1 ->
        is_Some (getGradientTable funscript numSegments)).
Proof.
  intros Hn2. split.
  - intros gt. unfold getGradientTable.
    destruct (getSegments funscript numSegments) as [segments|] eqn:Hseg;
      [|done].
    intros [= <-]. exists segments. unfold GradientTable in *.
    destruct (getSegments_inv _ _ _ Hseg) as [Hn Hlen].
    rewrite length_imap.
    assert (Hden : exists e, normal false (F64.of_int (numSegments - 1)) e).
    { destruct (of_int_pos_exact (numSegments - 1)) as [Hnorm _]; [lia|].
      eauto. }
    destruct Hden as [e Hden].
    split; [done|]. split; [done|]. split; [done|]. split; [|split; [|split]].
    + intros i sg Hsg. exists (stop_of numSegments i sg).
      rewrite list_lookup_imap, Hsg. done.
    + rewrite list_lookup_imap.
      destruct (lookup_lt_is_Some_2 segments 0) as [sg ->]; [lia|].
      cbn [fmap option_fmap option_map stop_of StopPos]. f_equal.
      change (Z.of_nat 0) with 0. rewrite of_int_0.
      by apply (div_zero_normal _ _ e).
    + rewrite last_lookup, length_imap, list_lookup_imap.
      destruct (lookup_lt_is_Some_2 segments (pred (length segments)))
        as [sg ->]; [lia|].
      cbn [fmap option_fmap option_map stop_of StopPos]. f_equal.
      replace (Z.of_nat (pred (length segments))) with (numSegments - 1)
        by lia.
      destruct Hden as (m & -> & _). apply div_self.
    + intros i j c1 c2 Hij. rewrite !list_lookup_imap.
      destruct (segments !! i) as [sg1|] eqn:H1; [|done].
      destruct (segments !! j) as [sg2|] eqn:H2; [|done].
      intros [= <-] [= <-]. cbn [stop_of StopPos].
      apply lookup_lt_Some in H2.
      apply position_lt; lia.
  - intros lastAction Hok Hlast Ha Hmax. unfold getGradientTable.
    destruct (getSegments_total funscript numSegments lastAction)
      as [segments ->]; try done. lia.
Qed.
End GradientFacts.

Lemma getGradientTable_stops_witness :
  2 <= 8
  /\ is_Some (getGradientTable (H:=Linear.colorful) backfill_example 8).
Proof.
  split; [lia|].
  apply (proj2 (getGradientTable_stops (H:=Linear.colorful) backfill_example 8
                  ltac:(lia))
           (default (rawAction 0 0) (last (Actions backfill_example)))).
  - reflexivity.
  - vm_compute. reflexivity.
  - unfold at_within. repeat constructor; vm_compute; congruence.
  - vm_compute. reflexivity.
Defined.

(** ** The colour of a segment *)

Lemma leb_nan_l (x y : float64) : F64.is_nan x = true -> F64.leb x y = false.
Proof. by destruct x. Qed.

Lemma leb_nan_r (x y : float64) : F64.is_nan y = true -> F64.leb x y = false.
Proof. by destruct x, y. Qed.

Lemma ltb_not_nan (x y : float64) :
  F64.ltb x y = true -> F64.is_nan x = false /\ F64.is_nan y = false.
Proof.
  intros Hlt. split.
  - destruct (F64.is_nan x) eqn:E; [|done]. by rewrite ltb_nan_l in Hlt.
  - destruct (F64.is_nan y) eqn:E; [|done]. by rewrite ltb_nan_r in Hlt.
Qed.

Lemma leb_not_nan (x y : float64) :
  F64.leb x y = true -> F64.is_nan x = false /\ F64.is_nan y = false.
Proof.
  intros Hle. split.
  - destruct (F64.is_nan x) eqn:E; [|done]. by rewrite leb_nan_l in Hle.
  - destruct (F64.is_nan y) eqn:E; [|done]. by rewrite leb_nan_r in Hle.
Qed.

Lemma rank_lt_le_contra a b : rank_lt a b -> rank_le b a -> False.
Proof.
  destruct a as [[a1 a2] a3], b as [[b1 b2] b3].
  unfold rank_le, rank_lt. intros Hab [Hba|[= -> -> ->]]; lia.
Qed.

Lemma rank_lt_le_trans a b c : rank_lt a b -> rank_le b c -> rank_lt a c.
Proof.
  intros Hab [Hbc|<-]; [|done]. by apply (rank_lt_trans a b c).
Qed.

Lemma rank_le_lt_trans a b c : rank_le a b -> rank_lt b c -> rank_lt a c.
Proof.
  intros [Hab| ->] Hbc; [|done]. by apply (rank_lt_trans a b c).
Qed.

Lemma ltb_not_leb (x y : float64) :
  F64.ltb x y = true -> F64.leb y x = false.
Proof.
  intros Hlt. destruct (ltb_not_nan _ _ Hlt) as [Hx Hy].
  destruct (F64.leb y x) eqn:Hle; [|done].
  apply ltb_rank in Hlt; [|done..]. apply leb_rank in Hle; [|done..].
  destruct (rank_lt_le_contra _ _ Hlt Hle).
Qed.

Lemma ltb_leb_trans (x y z : float64) :
  F64.ltb x y = true -> F64.leb y z = true -> F64.ltb x z = true.
Proof.
  intros Hlt Hle. destruct (ltb_not_nan _ _ Hlt) as [Hx Hy].
  destruct (leb_not_nan _ _ Hle) as [_ Hz].
  apply ltb_rank in Hlt; [|done..]. apply leb_rank in Hle; [|done..].
  apply ltb_rank; [done..|]. by apply (rank_lt_le_trans _ (rank y)).
Qed.

(** A value above [lo] fails the test [<= c] of every threshold
    [c <= lo]. *)
Lemma above_not_leb (x lo c : float64) :
  F64.ltb lo x = true -> F64.leb c lo = true -> F64.leb x c = false.
Proof.
  intros Hlt Hc. destruct (ltb_not_nan _ _ Hlt) as [Hlo Hx].
  destruct (leb_not_nan _ _ Hc) as [Hcn _].
  destruct (F64.leb x c) eqn:Hle; [|done].
  pose proof (leb_trans x c lo Hx Hcn Hlo Hle Hc) as Hxlo.
  by rewrite (ltb_not_leb _ _ Hlt) in Hxlo.
Qed.

Section SegmentColor.
Context `{Colorful}.

Lemma steps_0 : steps 0 = F64.of_int 0.
Proof. reflexivity. Qed.
Lemma steps_1 : steps 1 = F64.of_int 60.
Proof. reflexivity. Qed.
Lemma steps_2 : steps 2 = F64.of_int 120.
Proof. reflexivity. Qed.
Lemma steps_3 : steps 3 = F64.of_int 180.
Proof. reflexivity. Qed.
Lemma steps_4 : steps 4 = F64.of_int 240.
Proof. reflexivity. Qed.

#[local] Ltac below := eapply above_not_leb; [eassumption|reflexivity].

(** C6. [getSegmentColor] by branch, with step 60: every intensity
    [<= 0.001] (0.0 among them) gives the background colour; intensity 60
    gives the blend of blue and green at fraction 1; every intensity
    [>= 540] gives the blend of purple and black at fraction 1; an
    intensity in (180,240] is blended between red and purple by
    [BlendRgb], one in (0.001,60], (60,120], (120,180] or above 240 by
    [BlendLab]; a blend at fraction 1 being its second colour, intensity
    60 gives green itself and every intensity [>= 540] black itself. *)
Theorem getSegmentColor_branches :
  (forall x, F64.leb x (F64.ratio 1 1000) = true ->
     getSegmentColor x = colorBackground)
  /\ getSegmentColor (F64.of_int 0) = colorBackground
  /\ getSegmentColor (F64.of_int 60)
     = BlendLab colorBlue colorGreen (F64.of_int 1)
  /\ (forall x, F64.valid x = true -> F64.leb (F64.of_int 540) x = true ->
        getSegmentColor x = BlendLab colorPurple colorBlack (F64.of_int 1))
  /\ (forall x, F64.ltb (F64.of_int 180) x = true ->
        F64.leb x (F64.of_int 240) = true ->
        getSegmentColor x
        = BlendRgb colorRed colorPurple
            (F64.div (F64.sub x (F64.of_int 180)) (F64.of_int 60)))
  /\ (forall x, F64.ltb (F64.ratio 1 1000) x = true ->
        F64.leb x (F64.of_int 60) = true ->
        getSegmentColor x
        = BlendLab colorBlue colorGreen
            (F64.div (F64.sub x (F64.of_int 0)) (F64.of_int 60)))
  /\ (forall x, F64.ltb (F64.of_int 60) x = true ->
        F64.leb x (F64.of_int 120) = true ->
        getSegmentColor x
        = BlendLab colorGreen colorYellow
            (F64.div (F64.sub x (F64.of_int 60)) (F64.of_int 60)))
  /\ (forall x, F64.ltb (F64.of_int 120) x = true ->
        F64.leb x (F64.of_int 180) = true ->
        getSegmentColor x
        = BlendLab colorYellow colorRed
            (F64.div (F64.sub x (F64.of_int 120)) (F64.of_int 60)))
  /\ (forall x, F64.ltb (F64.of_int 240) x = true ->
        getSegmentColor x
        = BlendLab colorPurple colorBlack
            (F64.min (F64.div (F64.sub x (F64.of_int 240)) (F64.of_int 300))
               (F64.of_int 1)))
  /\ ((forall c1 c2, BlendLab c1 c2 (F64.of_int 1) = c2) ->
      getSegmentColor (F64.of_int 60) = colorGreen
      /\ forall x, F64.valid x = true -> F64.leb (F64.of_int 540) x = true ->
           getSegmentColor x = colorBlack).
Proof.
  assert (Hsat : forall x, F64.valid x = true ->
            F64.leb (F64.of_int 540) x = true ->
            getSegmentColor x = BlendLab colorPurple colorBlack (F64.of_int 1)).
  { intros x Hv Hx. unfold getSegmentColor.
    rewrite (saturated_fraction x Hv Hx).
    assert (Hlt : F64.ltb (F64.of_int 240) x = true).
    { eapply ltb_leb_trans; [|exact Hx]. reflexivity. }
    rewrite steps_1, steps_2, steps_3, steps_4.
    replace (F64.leb x (F64.ratio 1 1000)) with false by (symmetry; below).
    replace (F64.leb x (F64.of_int 60)) with false by (symmetry; below).
    replace (F64.leb x (F64.of_int 120)) with false by (symmetry; below).
    replace (F64.leb x (F64.of_int 180)) with false by (symmetry; below).
    replace (F64.leb x (F64.of_int 240)) with false by (symmetry; below).
    reflexivity. }
  split; [|split; [|split; [|split; [|split; [|split; [|split; [|split;
    [|split]]]]]]]].
  - intros x Hx. unfold getSegmentColor. by rewrite Hx.
  - reflexivity.
  - reflexivity.
  - exact Hsat.
  - intros x Hlt Hle. unfold getSegmentColor.
    rewrite steps_1, steps_2, steps_3, steps_4, Hle.
    replace (F64.leb x (F64.ratio 1 1000)) with false by (symmetry; below).
    replace (F64.leb x (F64.of_int 60)) with false by (symmetry; below).
    replace (F64.leb x (F64.of_int 120)) with false by (symmetry; below).
    replace (F64.leb x (F64.of_int 180)) with false by (symmetry; below).
    reflexivity.
  - intros x Hlt Hle. unfold getSegmentColor.
    rewrite steps_0, steps_1, Hle.
    replace (F64.leb x (F64.ratio 1 1000)) with false by (symmetry; below).
    reflexivity.
  - intros x Hlt Hle. unfold getSegmentColor.
    rewrite steps_1, steps_2, Hle.
    replace (F64.leb x (F64.ratio 1 1000)) with false by (symmetry; below).
    replace (F64.leb x (F64.of_int 60)) with false by (symmetry; below).
    reflexivity.
  - intros x Hlt Hle. unfold getSegmentColor.
    rewrite steps_1, steps_2, steps_3, Hle.
    replace (F64.leb x (F64.ratio 1 1000)) with false by (symmetry; below).
    replace (F64.leb x (F64.of_int 60)) with false by (symmetry; below).
    replace (F64.leb x (F64.of_int 120)) with false by (symmetry; below).
    reflexivity.
  - intros x Hlt. unfold getSegmentColor.
    rewrite steps_1, steps_2, steps_3, steps_4.
    replace (F64.leb x (F64.ratio 1 1000)) with false by (symmetry; below).
    replace (F64.leb x (F64.of_int 60)) with false by (symmetry; below).
    replace (F64.leb x (F64.of_int 120)) with false by (symmetry; below).
    replace (F64.leb x (F64.of_int 180)) with false by (symmetry; below).
    replace (F64.leb x (F64.of_int 240)) with false by (symmetry; below).
    reflexivity.
  - intros Hend. split.
    + transitivity (BlendLab colorBlue colorGreen (F64.of_int 1));
        [reflexivity|apply Hend].
    + intros x Hv Hx. rewrite (Hsat x Hv Hx). apply Hend.
Qed.
End SegmentColor.

(** ** Slope, intensity and speed of every action *)

(** What the loop of [UpdateIntensityAndSpeed] leaves at index [i]: the
    action itself at index 0, and elsewhere the action with the three
    values computed from it and its predecessor. *)
Definition annotate (actions : list Action) (i : nat) (cur : Action) : Action :=
  match i with
  | O => cur
  | S j =>
      match actions !! j with
      | Some prev =>
          let slope := slope_of (At cur) (At prev) in
          mkAction (At cur) (Pos cur) slope
            (intensity_of slope (Pos cur) (Pos prev))
            (speed_of (At cur) (At prev) (Pos cur) (Pos prev))
      | None => cur
      end
  end.

(** The slice after the first [k] rounds of the loop. *)
Definition annotated_upto (actions : list Action) (k : nat) : list Action :=
  imap (fun j a => if decide (j < k)%nat then annotate actions j a else a)
    actions.

Lemma annotate_At actions i a : At (annotate actions i a) = At a.
Proof. destruct i as [|j]; [done|]. cbn. by destruct (actions !! j). Qed.

Lemma annotate_Pos actions i a : Pos (annotate actions i a) = Pos a.
Proof. destruct i as [|j]; [done|]. cbn. by destruct (actions !! j). Qed.

Lemma annotated_upto_lookup actions k j :
  annotated_upto actions k !! j
  = (fun a => if decide (j < k)%nat then annotate actions j a else a)
      <$> actions !! j.
Proof. unfold annotated_upto. by rewrite list_lookup_imap. Qed.

Lemma update_step_spec actions (k : nat) :
  (k < length actions)%nat ->
  update_step (annotated_upto actions k) k = annotated_upto actions (S k).
Proof.
  intros Hk.
  destruct (lookup_lt_is_Some_2 actions k Hk) as [cur Hcur].
  assert (Hother : forall j, j <> k ->
            annotated_upto actions (S k) !! j = annotated_upto actions k !! j).
  { intros j Hj. rewrite !annotated_upto_lookup.
    destruct (actions !! j); [cbn|done].
    destruct (decide (j < S k)%nat), (decide (j < k)%nat); try done; lia. }
  assert (Hat : annotated_upto actions k !! k = Some cur).
  { rewrite annotated_upto_lookup, Hcur. cbn.
    by destruct (decide (k < k)%nat); [lia|]. }
  assert (Hnew : annotated_upto actions (S k) !! k
                 = Some (annotate actions k cur)).
  { rewrite annotated_upto_lookup, Hcur. cbn.
    by destruct (decide (k < S k)%nat); [|lia]. }
  apply list_eq. intros j. destruct k as [|k'].
  - cbn [update_step]. destruct (decide (j = 0%nat)) as [->|Hj].
    + by rewrite Hat, Hnew.
    + by rewrite Hother.
  - cbn [update_step]. rewrite Hat.
    destruct (lookup_lt_is_Some_2 actions k' ltac:(lia)) as [prev Hprev].
    assert (Hp : annotated_upto actions (S k') !! k'
                 = Some (annotate actions k' prev)).
    { rewrite annotated_upto_lookup, Hprev. cbn.
      by destruct (decide (k' < S k')%nat); [|lia]. }
    rewrite Hp, annotate_At, annotate_Pos.
    destruct (decide (j = S k')) as [->|Hj].
    + rewrite list_lookup_insert_eq
        by (unfold annotated_upto; rewrite length_imap; done).
      rewrite Hnew. cbn [annotate]. by rewrite Hprev.
    + rewrite list_lookup_insert_ne by done. by rewrite Hother.
Qed.

Lemma update_loop_spec actions (m k : nat) :
  (k + m <= length actions)%nat ->
  foldl update_step (annotated_upto actions k) (seq k m)
  = annotated_upto actions (k + m).
Proof.
  revert k. induction m as [|m IH]; intros k Hkm; cbn [seq foldl].
  - by rewrite Nat.add_0_r.
  - rewrite update_step_spec by lia. rewrite IH by lia.
    by rewrite Nat.add_succ_comm.
Qed.

(** The loop in closed form. *)
Lemma UpdateIntensityAndSpeed_spec funscript :
  Actions (UpdateIntensityAndSpeed funscript)
  = imap (annotate (Actions funscript)) (Actions funscript).
Proof.
  unfold UpdateIntensityAndSpeed, set_Actions. cbn [Actions].
  set (actions := Actions funscript).
  assert (H0 : annotated_upto actions 0 = actions).
  { apply list_eq. intros j. rewrite annotated_upto_lookup.
    destruct (actions !! j); [cbn|done].
    by destruct (decide (j < 0)%nat); [lia|]. }
  rewrite <- H0 at 1. rewrite update_loop_spec by lia.
  apply list_eq. intros j. rewrite annotated_upto_lookup, list_lookup_imap.
  destruct (actions !! j) eqn:E; [cbn|done].
  apply lookup_lt_Some in E.
  by destruct (decide _); [|lia].
Qed.
